(** * PII detection and redaction: a shallow embedding of
      [src/routes/redaction_simple.py]

    The development follows the source file top to bottom:

    - Python strings as lists of code points, with the two string
      primitives the redactor uses ([in] and [str.replace]) and slicing;
    - the part of Python's [re] engine the six compiled patterns need
      (a backtracking matcher with [search] and [finditer]);
    - [PIIDetector]: the patterns and [detect_pii];
    - [DocumentProcessor]: [redact_txt] and [redact_docx] over a file store;
    - the properties of the detector and of the redactor. *)

From Stdlib Require Import Ascii String.
From Stdlib Require Import NArith ZArith Arith Bool Lia.
From Stdlib Require Import List Permutation Sorted.
Import ListNotations.

Set Implicit Arguments.

(* ================================================================= *)
(** * Python strings *)

Module PyStr.

(** A Python [str] is a sequence of Unicode code points. *)
Definition codepoint := N.
Definition pystr := list codepoint.

Definition cp (a : ascii) : codepoint := N_of_ascii a.

(** The code points of a literal written in the source. *)
Definition str (s : string) : pystr := map cp (list_ascii_of_string s).

Definition pystr_eqb (a b : pystr) : bool :=
  if list_eq_dec N.eq_dec a b then true else false.

(** [s.startswith(p)]. *)
Fixpoint startswith (p s : pystr) : bool :=
  match p, s with
  | [], _ => true
  | _ :: _, [] => false
  | a :: p', b :: s' => N.eqb a b && startswith p' s'
  end.

(** [sub in s]: some suffix of [s] starts with [sub]; the empty string is
    a substring of every string. *)
Fixpoint contains (sub s : pystr) : bool :=
  startswith sub s ||
  match s with
  | [] => false
  | _ :: s' => contains sub s'
  end.

(** The scan of [str.replace] for a non-empty [old]: left to right, an
    occurrence found at the current position is replaced and the scan
    resumes after it ([skip] counts the characters of the occurrence still
    to be passed over), so replaced occurrences never overlap. *)
Fixpoint replace_scan (old new : pystr) (skip : nat) (s : pystr) : pystr :=
  match s with
  | [] => []
  | c :: s' =>
      match skip with
      | S k => replace_scan old new k s'
      | O =>
          if startswith old s
          then new ++ replace_scan old new (length old - 1) s'
          else c :: replace_scan old new 0 s'
      end
  end.

(** [s.replace(old, new)].  With the empty [old], Python puts [new] before
    every character and once more at the end. *)
Definition replace (s old new : pystr) : pystr :=
  match old with
  | [] => new ++ flat_map (fun c => c :: new) s
  | _ :: _ => replace_scan old new 0 s
  end.

(** Slice bounds are clamped to [0, len], negative ones counted from the
    end. *)
Definition slice_index (len i : Z) : Z :=
  let j := if (i <? 0)%Z then (i + len)%Z else i in
  Z.max 0 (Z.min len j).

(** [s[a:b]]. *)
Definition slice (s : pystr) (a b : Z) : pystr :=
  let len := Z.of_nat (length s) in
  let a' := Z.to_nat (slice_index len a) in
  let b' := Z.to_nat (slice_index len b) in
  firstn (b' - a') (skipn a' s).

(** The characters at positions [a, a+1, ..., b-1]. *)
Definition substring (s : pystr) (a b : nat) : pystr :=
  firstn (b - a) (skipn a s).

End PyStr.
Import PyStr.

(* ================================================================= *)
(** * The regular-expression engine (Python's [re] on [str] patterns) *)

Module Re.

(** The Unicode character database is not part of the repository.  The
    engine consults it for [\d], [\s], [\w] and, under [re.IGNORECASE],
    for lower-casing.  ASCII code points are classified here; the
    classification of the others is a parameter. *)
Record unicode_db := {
  uni_decimal : codepoint -> bool;   (* [str.isdecimal] *)
  uni_space : codepoint -> bool;     (* [str.isspace] *)
  uni_alnum : codepoint -> bool;     (* [str.isalnum] *)
  uni_lower : codepoint -> codepoint; (* simple lower-case mapping *)
  uni_upper : codepoint -> codepoint  (* simple upper-case mapping *)
}.

Definition in_range (lo hi c : codepoint) : bool :=
  N.leb lo c && N.leb c hi.

Definition is_ascii (c : codepoint) : bool := N.ltb c 128%N.

Section Classes.
Variable db : unicode_db.

(** [\d] *)
Definition is_digit (c : codepoint) : bool :=
  if is_ascii c then in_range (cp "0") (cp "9") c else uni_decimal db c.

(** [\s]: in ASCII, tab to carriage return, the four separators
    [0x1c]-[0x1f] and the space. *)
Definition is_space (c : codepoint) : bool :=
  if is_ascii c
  then in_range 9%N 13%N c || in_range 28%N 31%N c || N.eqb c 32%N
  else uni_space db c.

(** [\w]: alphanumeric or underscore. *)
Definition is_word (c : codepoint) : bool :=
  if is_ascii c
  then in_range (cp "a") (cp "z") c || in_range (cp "A") (cp "Z") c
       || in_range (cp "0") (cp "9") c || N.eqb c (cp "_")
  else uni_alnum db c.

Definition lower (c : codepoint) : codepoint :=
  if is_ascii c
  then (if in_range (cp "A") (cp "Z") c then c + 32 else c)%N
  else uni_lower db c.

Definition upper (c : codepoint) : codepoint :=
  if is_ascii c
  then (if in_range (cp "a") (cp "z") c then c - 32 else c)%N
  else uni_upper db c.

(** A character is cased when lower- or upper-casing changes it. *)
Definition is_cased (c : codepoint) : bool :=
  negb (N.eqb c (lower c)) || negb (N.eqb c (upper c)).

End Classes.

(** Lower-case characters that share their upper case with an ASCII letter
    (the engine's case "fixes"): dotless i with [i], long s with [s]. *)
Definition ignorecase_fixes (c : codepoint) : list codepoint :=
  if N.eqb c (cp "i") then [305%N]
  else if N.eqb c (cp "s") then [383%N]
  else [].

(** Members of a bracketed character set. *)
Inductive set_item :=
| SChar (c : codepoint)
| SRange (lo hi : codepoint)
| SDigit
| SSpace.

(** Pattern syntax, as far as the six patterns of the detector use it. *)
Inductive regex :=
| Empty                                   (* matches the empty string *)
| Fail                                    (* matches nothing *)
| Lit (c : codepoint)                     (* a literal character *)
| Digit                                   (* [\d] *)
| Space                                   (* [\s] *)
| OneOf (items : list set_item)           (* [[...]] *)
| Boundary                                (* [\b] *)
| Seq (r1 r2 : regex)
| Alt (r1 r2 : regex)                     (* [r1|r2], ordered *)
| Group (r : regex)                       (* [(r)] *)
| RepeatOne (r : regex) (lo : nat) (hi : option nat)
                                          (* greedy repeat of a one-character item *)
| Repeat (r : regex) (lo hi : nat).       (* greedy [{lo,hi}] of a longer body *)

Fixpoint seqs (l : list regex) : regex :=
  match l with
  | [] => Empty
  | [r] => r
  | r :: l' => Seq r (seqs l')
  end.

Fixpoint alts (l : list regex) : regex :=
  match l with
  | [] => Fail
  | [r] => r
  | r :: l' => Alt r (alts l')
  end.

(** A literal word, character by character. *)
Definition word (s : string) : regex := seqs (map Lit (str s)).

Record flags := { ignorecase : bool }.

Section Matcher.
Variable db : unicode_db.
Variable fl : flags.
Variable text : pystr.

Definition range_chars (lo hi : codepoint) : list codepoint :=
  map (fun i => (lo + N.of_nat i)%N) (seq 0 (N.to_nat (hi + 1 - lo))).

Definition mem (c : codepoint) (l : list codepoint) : bool :=
  existsb (N.eqb c) l.

Definition item_match (c : codepoint) (it : set_item) : bool :=
  match it with
  | SChar a => N.eqb c a
  | SRange a b => in_range a b c
  | SDigit => is_digit db c
  | SSpace => is_space db c
  end.

(** A literal under [IGNORECASE]: the lower-cased subject character is
    the lower-cased literal or one of its fixes. *)
Definition lit_match_ci (a c : codepoint) : bool :=
  let la := lower db a in
  mem (lower db c) (la :: ignorecase_fixes la).

(** A set under [IGNORECASE]: the set is closed under lower-casing and
    fixes, and the lower-cased subject character is looked up in it. *)
Definition item_match_ci (c : codepoint) (it : set_item) : bool :=
  match it with
  | SChar a => lit_match_ci a c
  | SRange a b => existsb (fun x => lit_match_ci x c) (range_chars a b)
  | SDigit => is_digit db (lower db c)
  | SSpace => is_space db (lower db c)
  end.

Definition is_cased_item (it : set_item) : bool :=
  match it with
  | SChar a => is_cased db a
  | SRange a b => existsb (is_cased db) (range_chars a b)
  | SDigit | SSpace => false
  end.

(** Whether a one-character item accepts the character [c]. *)
Definition char_match (r : regex) (c : codepoint) : bool :=
  match r with
  | Lit a =>
      if ignorecase fl && is_cased db a then lit_match_ci a c else N.eqb c a
  | Digit => is_digit db c
  | Space => is_space db c
  | OneOf items =>
      if ignorecase fl && existsb is_cased_item items
      then existsb (item_match_ci c) items
      else existsb (item_match c) items
  | _ => false
  end.

(** [\b] at [pos]: exactly one of the characters before and at [pos] is a
    word character (a missing character counts as a non-word one). *)
Definition at_boundary (pos : nat) : bool :=
  let that := match pos with
              | O => false
              | S p => match nth_error text p with
                       | Some c => is_word db c
                       | None => false
                       end
              end in
  let this := match nth_error text pos with
              | Some c => is_word db c
              | None => false
              end in
  negb (Bool.eqb this that).

(** How many characters accepted by [r] follow, at most [limit]. *)
Fixpoint count_run (r : regex) (limit : option nat) (s : pystr) : nat :=
  match s with
  | [] => 0
  | c :: s' =>
      match limit with
      | Some O => 0
      | _ =>
          if char_match r c
          then S (count_run r (option_map pred limit) s')
          else 0
      end
  end.

(** The tail is tried after [n] repetitions, then after [n-1], ..., down
    to [lo]. *)
Fixpoint backoff (k : nat -> option nat) (pos lo n : nat) : option nat :=
  if n <? lo then None
  else match k (pos + n) with
       | Some e => Some e
       | None =>
           match n with
           | O => None
           | S n' => backoff k pos lo n'
           end
       end.

Definition last_is (last : option nat) (pos : nat) : bool :=
  match last with
  | Some p => p =? pos
  | None => false
  end.

(** The loop of a greedy [Repeat] whose body is matched by [body]:
    [budget] rounds may still be taken and [need] of them are required.
    A required round is taken unconditionally.  An optional round is taken
    unless the previous optional round stopped where it started ([last]);
    when it fails, the tail [k] is tried. *)
Fixpoint repeat_until (body : nat -> (nat -> option nat) -> option nat)
  (k : nat -> option nat) (budget need : nat) (last : option nat)
  (pos : nat) {struct budget} : option nat :=
  match budget with
  | O => match need with O => k pos | S _ => None end
  | S budget' =>
      match need with
      | S need' =>
          body pos (fun p => repeat_until body k budget' need' last p)
      | O =>
          if last_is last pos then k pos
          else match body pos
                       (fun p => repeat_until body k budget' 0 (Some pos) p) with
               | Some e => Some e
               | None => k pos
               end
      end
  end.

(** Backtracking match of [r] at [pos]; [k] is the rest of the pattern and
    returns the end of the whole match. *)
Fixpoint match_at (r : regex) (pos : nat) (k : nat -> option nat)
  {struct r} : option nat :=
  match r with
  | Empty => k pos
  | Fail => None
  | Lit _ | Digit | Space | OneOf _ =>
      match nth_error text pos with
      | Some c => if char_match r c then k (S pos) else None
      | None => None
      end
  | Boundary => if at_boundary pos then k pos else None
  | Seq r1 r2 => match_at r1 pos (fun p => match_at r2 p k)
  | Alt r1 r2 =>
      match match_at r1 pos k with
      | Some e => Some e
      | None => match_at r2 pos k
      end
  | Group r1 => match_at r1 pos k
  | RepeatOne r1 lo hi =>
      let n := count_run r1 hi (skipn pos text) in
      backoff k pos lo n
  | Repeat r1 lo hi => repeat_until (match_at r1) k hi lo None pos
  end.

(** The end of a top-level match from [start]; when the previous match of
    the scan was empty, an empty match at the scan position is refused. *)
Definition match_from (r : regex) (must_advance : bool) (start : nat)
  : option nat :=
  match_at r start
    (fun e => if must_advance && (e =? start) then None else Some e).

(** [pattern.search]: the first start position, from [pos] on, at which the
    pattern matches; only the first attempt is subject to [must_advance].
    [n] is the number of start positions after [pos]. *)
Fixpoint search_from (r : regex) (must_advance : bool) (pos n : nat)
  : option (nat * nat) :=
  match match_from r must_advance pos with
  | Some e => Some (pos, e)
  | None =>
      match n with
      | O => None
      | S n' => search_from r false (S pos) n'
      end
  end.

Definition search (r : regex) (must_advance : bool) (pos : nat)
  : option (nat * nat) :=
  if length text <? pos then None
  else search_from r must_advance pos (length text - pos).

(** The scanner behind [pattern.finditer]: each search resumes where the
    last match ended.  Every round either moves the scan position forward
    or, after an empty match, forces the next one to advance, so
    [2 * len + 2] rounds always suffice. *)
Fixpoint scan (r : regex) (fuel : nat) (pos : nat) (must_advance : bool)
  : list (nat * nat) :=
  match fuel with
  | O => []
  | S fuel' =>
      match search r must_advance pos with
      | None => []
      | Some (s, e) => (s, e) :: scan r fuel' e (e =? s)
      end
  end.

Definition finditer (r : regex) : list (nat * nat) :=
  scan r (2 * length text + 2) 0 false.

End Matcher.

(** A compiled pattern: the expression and its flags. *)
Record pattern := { pat_regex : regex; pat_flags : flags }.

Definition compile (r : regex) : pattern :=
  {| pat_regex := r; pat_flags := {| ignorecase := false |} |}.

Definition compile_ignorecase (r : regex) : pattern :=
  {| pat_regex := r; pat_flags := {| ignorecase := true |} |}.

Definition pattern_finditer (db : unicode_db) (p : pattern) (text : pystr)
  : list (nat * nat) :=
  finditer db (pat_flags p) text (pat_regex p).

End Re.
Import Re.

(* ================================================================= *)
(** * [class PIIDetector] *)

Module PIIDetector.

Definition chars (s : string) : list set_item := map SChar (str s).
Definition range (a b : ascii) : set_item := SRange (cp a) (cp b).
Definition lit (a : ascii) : regex := Lit (cp a).

Definition exactly (r : regex) (n : nat) : regex := RepeatOne r n (Some n).
Definition between (r : regex) (lo hi : nat) : regex := RepeatOne r lo (Some hi).
Definition at_least (r : regex) (lo : nat) : regex := RepeatOne r lo None.
Definition optional (r : regex) : regex := RepeatOne r 0 (Some 1).

(** [\b[A-Za-z0-9._%+-]+@[A-Za-z0-9.-]+\.[A-Z|a-z]{2,}\b] *)
Definition email_pattern : pattern :=
  compile (seqs
    [ Boundary;
      at_least (OneOf (range "A" "Z" :: range "a" "z" :: range "0" "9" :: chars "._%+-")) 1;
      lit "@";
      at_least (OneOf (range "A" "Z" :: range "a" "z" :: range "0" "9" :: chars ".-")) 1;
      lit ".";
      at_least (OneOf [range "A" "Z"; SChar (cp "|"); range "a" "z"]) 2;
      Boundary ]).

(** [\b\d{3}-?\d{2}-?\d{4}\b] *)
Definition ssn_pattern : pattern :=
  compile (seqs
    [ Boundary;
      exactly Digit 3; optional (lit "-");
      exactly Digit 2; optional (lit "-");
      exactly Digit 4;
      Boundary ]).

(** [\b(?:\d{4}[-\s]?){3}\d{4}\b] *)
Definition credit_card_pattern : pattern :=
  compile (seqs
    [ Boundary;
      Repeat (Seq (exactly Digit 4) (optional (OneOf [SChar (cp "-"); SSpace]))) 3 3;
      exactly Digit 4;
      Boundary ]).

(** [\b\d{1,2}[/-]\d{1,2}[/-]\d{2,4}\b] *)
Definition date_pattern : pattern :=
  compile (seqs
    [ Boundary;
      between Digit 1 2; OneOf (chars "/-");
      between Digit 1 2; OneOf (chars "/-");
      between Digit 2 4;
      Boundary ]).

(** [\b[A-Z]{2}\d{2}[A-Z0-9]{4}\d{7}([A-Z0-9]?){0,16}\b] *)
Definition iban_pattern : pattern :=
  compile (seqs
    [ Boundary;
      exactly (OneOf [range "A" "Z"]) 2;
      exactly Digit 2;
      exactly (OneOf [range "A" "Z"; range "0" "9"]) 4;
      exactly Digit 7;
      Repeat (Group (optional (OneOf [range "A" "Z"; range "0" "9"]))) 0 16;
      Boundary ]).

(** [\b\d+\s+[A-Za-z\s]+(?:Street|St|Avenue|Ave|Road|Rd|Boulevard|Blvd|Lane|Ln|Drive|Dr)\b]
    with [re.IGNORECASE] *)
Definition address_pattern : pattern :=
  compile_ignorecase (seqs
    [ Boundary;
      at_least Digit 1;
      at_least Space 1;
      at_least (OneOf [range "A" "Z"; range "a" "z"; SSpace]) 1;
      alts (map word
        [ "Street"; "St"; "Avenue"; "Ave"; "Road"; "Rd";
          "Boulevard"; "Blvd"; "Lane"; "Ln"; "Drive"; "Dr" ]%string);
      Boundary ]).

(** One entry of [pii_items]: the dict with the keys ['type'], ['text'],
    ['start'], ['end'] and ['confidence']. *)
Inductive pii_kind := email | phone | ssn | credit_card | date | iban | address.
Inductive confidence_tag := high | medium | low.

Record pii_item := {
  pii_type : pii_kind;
  pii_text : pystr;
  pii_start : Z;
  pii_end : Z;
  pii_confidence : confidence_tag
}.

Definition pii_kind_eqb (a b : pii_kind) : bool :=
  match a, b with
  | email, email | phone, phone | ssn, ssn | credit_card, credit_card
  | date, date | iban, iban | address, address => true
  | _, _ => false
  end.

(** Running an iterator: it yields values until it is exhausted or
    raises. *)
Inductive iteration (A : Type) :=
| Yield (a : A) (rest : iteration A)
| StopIteration
| Raise.
Arguments StopIteration {A}.
Arguments Raise {A}.

(** A [PhoneNumberMatch], as far as the detector reads it. *)
Record phone_match := { pm_start : Z; pm_end : Z }.

(** [sorted(l, key=...)]: a stable sort.  [x] is put before the first
    element whose key is not smaller, so that it stays ahead of the equal
    keys that came after it. *)
Section Sorted.
Variable A : Type.
Variable key : A -> Z.

Fixpoint insert_by_key (x : A) (l : list A) : list A :=
  match l with
  | [] => [x]
  | y :: l' =>
      if (key x <=? key y)%Z then x :: y :: l'
      else y :: insert_by_key x l'
  end.

Definition sorted (l : list A) : list A :=
  fold_right insert_by_key [] l.

End Sorted.

Section Detect.
(** The character database and [phonenumbers.PhoneNumberMatcher(text, None)]
    are external to the repository. *)
Variable db : unicode_db.
Variable PhoneNumberMatcher : pystr -> iteration phone_match.

(** The body of the [for match in pattern.finditer(text)] loops:
    [match.group()], [match.start()] and [match.end()] of a match are the
    subject's slice and its two offsets. *)
Definition append_match (kind : pii_kind) (conf : confidence_tag)
  (text : pystr) (pii_items : list pii_item) (m : nat * nat)
  : list pii_item :=
  pii_items ++
  [ {| pii_type := kind;
       pii_text := slice text (Z.of_nat (fst m)) (Z.of_nat (snd m));
       pii_start := Z.of_nat (fst m);
       pii_end := Z.of_nat (snd m);
       pii_confidence := conf |} ].

Definition detect_pattern (p : pattern) (kind : pii_kind)
  (conf : confidence_tag) (text : pystr) (pii_items : list pii_item)
  : list pii_item :=
  fold_left (append_match kind conf text) (pattern_finditer db p text) pii_items.

(** The phone loop inside [try: ... except: pass]: an item is appended for
    every match the iterator yields; when the iterator raises, the loop is
    left with what has been appended so far. *)
Fixpoint detect_phone (it : iteration phone_match) (text : pystr)
  (pii_items : list pii_item) : list pii_item :=
  match it with
  | Yield m rest =>
      detect_phone rest text
        (pii_items ++
         [ {| pii_type := phone;
              pii_text := slice text (pm_start m) (pm_end m);
              pii_start := pm_start m;
              pii_end := pm_end m;
              pii_confidence := high |} ])
  | StopIteration => pii_items
  | Raise => pii_items
  end.

(** The list [pii_items] just before the final sort. *)
Definition collect_pii (text : pystr) : list pii_item :=
  let pii_items := [] in
  let pii_items := detect_pattern email_pattern email high text pii_items in
  let pii_items := detect_phone (PhoneNumberMatcher text) text pii_items in
  let pii_items := detect_pattern ssn_pattern ssn high text pii_items in
  let pii_items := detect_pattern credit_card_pattern credit_card medium text pii_items in
  let pii_items := detect_pattern date_pattern date low text pii_items in
  let pii_items := detect_pattern iban_pattern iban high text pii_items in
  let pii_items := detect_pattern address_pattern address medium text pii_items in
  pii_items.

Definition detect_pii (text : pystr) : list pii_item :=
  sorted pii_start (collect_pii text).

End Detect.

End PIIDetector.
Import PIIDetector.

(* ================================================================= *)
(** * [class DocumentProcessor] *)

Module DocumentProcessor.

(** A stored file, as the processor sees it: the text that reading a
    [.txt] file returns (and that writing stores), or the [text] of the
    paragraphs of a [.docx] document, in document order. *)
Inductive file :=
| TxtFile (content : pystr)
| DocxFile (paragraphs : list pystr).

Definition filesystem := string -> option file.

Definition write_file (fs : filesystem) (path : string) (f : file)
  : filesystem :=
  fun p => if String.eqb p path then Some f else fs p.

(** An element of [redaction_items]; only [item['text']] is read. *)
Record redaction_item := { text : pystr }.

Definition REDACTED : pystr := str "[REDACTED]".

(** The loop of [redact_txt] over the content read from the file. *)
Definition redact_content (content : pystr)
  (redaction_items : list redaction_item) : pystr :=
  fold_left (fun content item => replace content (text item) REDACTED)
            redaction_items content.

Definition carriage_return : codepoint := 13%N.
Definition line_feed : codepoint := 10%N.

(** [para.text = s], and what [para.text] reads from then on.  The
    document library puts [s] into one run of the paragraph, with a tab
    element for every tab and a line break for every line feed and for
    every carriage return; read back, a tab element is a tab and a line
    break is a line feed.  The text assigned so comes back with each of
    its carriage returns turned into a line feed.  (A paragraph's text is
    read from the XML of the document, where tab, line feed and carriage
    return are the only control characters.) *)
Definition assign_text (s : pystr) : pystr :=
  map (fun c => if N.eqb c carriage_return then line_feed else c) s.

(** The inner loop of [redact_docx] on the text of one paragraph: the
    paragraph is assigned to only when the literal occurs in it. *)
Definition redact_paragraph (para_text : pystr)
  (redaction_items : list redaction_item) : pystr :=
  fold_left
    (fun para_text item =>
       if contains (text item) para_text
       then assign_text (replace para_text (text item) REDACTED)
       else para_text)
    redaction_items para_text.

(** [redact_txt]: [None] stands for the exception raised when the file
    cannot be opened as text; writing the result is taken to succeed. *)
Definition redact_txt (fs : filesystem) (file_path : string)
  (redaction_items : list redaction_item) (output_path : string)
  : option (filesystem * string) :=
  match fs file_path with
  | Some (TxtFile content) =>
      let content := redact_content content redaction_items in
      Some (write_file fs output_path (TxtFile content), output_path)
  | _ => None
  end.

(** [redact_docx]: [None] stands for the exception raised when the file
    cannot be opened as a document; saving the result is taken to
    succeed. *)
Definition redact_docx (fs : filesystem) (file_path : string)
  (redaction_items : list redaction_item) (output_path : string)
  : option (filesystem * string) :=
  match fs file_path with
  | Some (DocxFile paragraphs) =>
      let paragraphs :=
        map (fun para_text => redact_paragraph para_text redaction_items)
            paragraphs in
      Some (write_file fs output_path (DocxFile paragraphs), output_path)
  | _ => None
  end.

End DocumentProcessor.
Import DocumentProcessor.

(* ================================================================= *)
(** * Vocabulary of the properties *)

Module Props.

(** The values an iterator yields before it stops or raises. *)
Fixpoint yielded (A : Type) (it : iteration A) : list A :=
  match it with
  | Yield a rest => a :: yielded rest
  | StopIteration => []
  | Raise => []
  end.

Fixpoint raises (A : Type) (it : iteration A) : bool :=
  match it with
  | Yield _ rest => raises rest
  | StopIteration => false
  | Raise => true
  end.

(** The items of one regex category, in scan order. *)
Definition pattern_items (db : unicode_db) (p : pattern) (kind : pii_kind)
  (conf : confidence_tag) (T : pystr) : list pii_item :=
  map (fun m =>
         {| pii_type := kind;
            pii_text := slice T (Z.of_nat (fst m)) (Z.of_nat (snd m));
            pii_start := Z.of_nat (fst m);
            pii_end := Z.of_nat (snd m);
            pii_confidence := conf |})
      (pattern_finditer db p T).

(** The item appended for a match of the phone matcher. *)
Definition phone_item (T : pystr) (m : phone_match) : pii_item :=
  {| pii_type := phone;
     pii_text := slice T (pm_start m) (pm_end m);
     pii_start := pm_start m;
     pii_end := pm_end m;
     pii_confidence := high |}.

(** The items of the phone category, in the order the matcher yields. *)
Definition phone_items (it : iteration phone_match) (T : pystr)
  : list pii_item :=
  map (phone_item T) (yielded it).

(** The run of an iterator that yields [ms] and then ends as [last]. *)
Definition yields_then (A : Type) (ms : list A) (last : iteration A)
  : iteration A :=
  fold_right (@Yield A) last ms.

(** All categories pooled in detection order. *)
Definition pooled (db : unicode_db)
  (PhoneNumberMatcher : pystr -> iteration phone_match) (T : pystr)
  : list pii_item :=
  pattern_items db email_pattern email high T ++
  phone_items (PhoneNumberMatcher T) T ++
  pattern_items db ssn_pattern ssn high T ++
  pattern_items db credit_card_pattern credit_card medium T ++
  pattern_items db date_pattern date low T ++
  pattern_items db iban_pattern iban high T ++
  pattern_items db address_pattern address medium T.

(** The items of one category, in detection order. *)
Definition items_of_kind (db : unicode_db)
  (PhoneNumberMatcher : pystr -> iteration phone_match) (T : pystr)
  (k : pii_kind) : list pii_item :=
  match k with
  | email => pattern_items db email_pattern email high T
  | phone => phone_items (PhoneNumberMatcher T) T
  | ssn => pattern_items db ssn_pattern ssn high T
  | credit_card => pattern_items db credit_card_pattern credit_card medium T
  | date => pattern_items db date_pattern date low T
  | iban => pattern_items db iban_pattern iban high T
  | address => pattern_items db address_pattern address medium T
  end.

Definition has_kind (k : pii_kind) (i : pii_item) : bool :=
  pii_kind_eqb (pii_type i) k.

Definition starts_at (z : Z) (i : pii_item) : bool :=
  Z.eqb (pii_start i) z.

(** Ascending order of the sort key. *)
Definition key_le (A : Type) (key : A -> Z) (a b : A) : Prop :=
  (key a <= key b)%Z.

Definition start_le : pii_item -> pii_item -> Prop := key_le pii_start.



(** The matches of a scan follow one another: each lies in the text and
    starts no earlier than where the previous one ended. *)
Fixpoint successive (len from : nat) (l : list (nat * nat)) : Prop :=
  match l with
  | [] => True
  | (s, e) :: l' => from <= s /\ s <= e /\ e <= len /\ successive len e l'
  end.

(** The number of rounds a scan at [pos] can still take. *)
Definition rounds_left (len pos : nat) (must_advance : bool) : nat :=
  2 * (len - pos) + (if must_advance then 1 else 2).

(** Replace-all in the spec's words: the leftmost occurrence of [old] is
    replaced by [new] and the rest of the text, after that occurrence, is
    treated the same way; a text without occurrence is kept.  The empty
    [old] occurs at every gap. *)
Definition leftmost (old pre rest : pystr) : Prop :=
  forall pre1 rest1,
    pre ++ old ++ rest = pre1 ++ old ++ rest1 -> length pre <= length pre1.

Fixpoint sentinel_at_every_gap (new s : pystr) : pystr :=
  match s with
  | [] => new
  | c :: s' => new ++ c :: sentinel_at_every_gap new s'
  end.

Inductive ReplaceAll (old new : pystr) : pystr -> pystr -> Prop :=
| ReplaceAll_gaps s :
    old = [] ->
    ReplaceAll old new s (sentinel_at_every_gap new s)
| ReplaceAll_absent s :
    old <> [] ->
    (forall pre rest, s <> pre ++ old ++ rest) ->
    ReplaceAll old new s s
| ReplaceAll_first pre rest out :
    old <> [] ->
    leftmost old pre rest ->
    ReplaceAll old new rest out ->
    ReplaceAll old new (pre ++ old ++ rest) (pre ++ new ++ out).

(** The literals are applied one after the other, each to the text the
    previous ones left. *)
Inductive RedactedBy : pystr -> list redaction_item -> pystr -> Prop :=
| RedactedBy_nil c : RedactedBy c [] c
| RedactedBy_cons c c' c'' item items :
    ReplaceAll (text item) REDACTED c c' ->
    RedactedBy c' items c'' ->
    RedactedBy c (item :: items) c''.

(** The literal occurs in the text. *)
Definition occurs (sub s : pystr) : Prop :=
  exists pre rest, s = pre ++ sub ++ rest.

(** Sample parameters for evaluating the detector on ASCII text: a
    database that classifies no character outside ASCII, and a matcher
    whose run is given. *)
Definition ascii_only_db : unicode_db :=
  {| uni_decimal := fun _ => false;
     uni_space := fun _ => false;
     uni_alnum := fun _ => false;
     uni_lower := fun c => c;
     uni_upper := fun c => c |}.

Definition matcher_run (it : iteration phone_match)
  : pystr -> iteration phone_match :=
  fun _ => it.

Definition item (s : string) : redaction_item := {| text := str s |}.

(** A store with a text file holding "aaa" and a document of two
    paragraphs. *)
Definition empty_fs : filesystem := fun _ => None.

Definition sample_fs : filesystem :=
  write_file
    (write_file empty_fs "in.txt" (TxtFile (str "aaa")))
    "in.docx" (DocxFile [str "Email: a@b.com"; str "No PII here"]).

(** A text with a phone number at [5, 17) and an e-mail address at
    [26, 42), and three runs of the phone matcher: one that finds nothing,
    one that ends normally after the number, one that raises after it. *)
Definition sample_text : pystr :=
  str "Call +14155552671 or mail jane@example.com".

(** A text with two numbers of the shape of an SSN, at [0, 11) and at
    [17, 26). *)
Definition two_numbers_text : pystr := str "123-45-6789 then 987654321".

Definition sample_number : phone_match := {| pm_start := 5; pm_end := 17 |}.

Definition matcher_none : pystr -> iteration phone_match :=
  matcher_run StopIteration.

Definition matcher_ok : pystr -> iteration phone_match :=
  matcher_run (Yield sample_number StopIteration).

Definition matcher_failing : pystr -> iteration phone_match :=
  matcher_run (yields_then [sample_number] Raise).





End Props.
Import Props.


(* ================================================================= *)
(** * The rest of the module: file names, analysis, routes *)

Module Upload.

(** ASCII lower-casing of one code point. *)
Definition ascii_lower (c : codepoint) : codepoint :=
  if in_range (cp "A") (cp "Z") c then (c + 32)%N else c.

Section Lower.
(** [str.lower] maps an ASCII character to its ASCII lower case; what it
    puts for a character outside ASCII (one or several characters,
    depending for the capital sigma on its neighbours) is a parameter,
    given the whole string and the position. *)
Variable lower_other : pystr -> nat -> pystr.

Fixpoint lower_from (whole : pystr) (i : nat) (s : pystr) : pystr :=
  match s with
  | [] => []
  | c :: s' =>
      (if is_ascii c then [ascii_lower c] else lower_other whole i)
      ++ lower_from whole (S i) s'
  end.

(** [s.lower()] *)
Definition str_lower (s : pystr) : pystr := lower_from s 0 s.

(** The split of [s.rsplit(sep, 1)] at the last [sep], when there is one. *)
Fixpoint split_last (sep : codepoint) (s : pystr) : option (pystr * pystr) :=
  match s with
  | [] => None
  | c :: s' =>
      match split_last sep s' with
      | Some (a, b) => Some (c :: a, b)
      | None => if N.eqb c sep then Some ([], s') else None
      end
  end.

(** [s.rsplit(sep, 1)] for a one-character separator. *)
Definition rsplit1 (sep : codepoint) (s : pystr) : list pystr :=
  match split_last sep s with
  | Some (a, b) => [a; b]
  | None => [s]
  end.

Definition ALLOWED_EXTENSIONS : list pystr := [str "txt"; str "docx"].

(** [allowed_file]; [None] stands for the [IndexError] of the subscript
    [[1]], which the test for a dot is there to prevent. *)
Definition allowed_file (filename : pystr) : option bool :=
  if contains (str ".") filename
  then match nth_error (rsplit1 (cp ".") filename) 1 with
       | Some ext => Some (existsb (pystr_eqb (str_lower ext)) ALLOWED_EXTENSIONS)
       | None => None
       end
  else Some false.

End Lower.

End Upload.
Import Upload.

Module Analysis.

(** The line feed, ["\n"]. *)
Definition newline : codepoint := 10%N.

(** [sep.join(l)] *)
Fixpoint join (sep : pystr) (l : list pystr) : pystr :=
  match l with
  | [] => []
  | [s] => s
  | s :: l' => s ++ sep ++ join sep l'
  end.

(** The dict returned by [process_docx] and [process_txt]: ['text'],
    ['pii_items'] and, for a document, ['paragraphs']. *)
Record analysis := {
  an_text : pystr;
  an_pii_items : list pii_item;
  an_paragraphs : option (list pystr)
}.

Section Process.
Variable db : unicode_db.
Variable PhoneNumberMatcher : pystr -> iteration phone_match.

(** [process_docx]; [None] stands for the exception raised when the file
    cannot be opened as a document. *)
Definition process_docx (fs : filesystem) (file_path : string)
  : option analysis :=
  match fs file_path with
  | Some (DocxFile paragraphs) =>
      let full_text := fold_left (fun acc para => acc ++ [para]) paragraphs [] in
      let text_content := join [newline] full_text in
      let pii_items := detect_pii db PhoneNumberMatcher text_content in
      Some {| an_text := text_content;
              an_pii_items := pii_items;
              an_paragraphs := Some full_text |}
  | _ => None
  end.

(** [process_txt]; [None] stands for the exception raised when the file
    cannot be read as text. *)
Definition process_txt (fs : filesystem) (file_path : string)
  : option analysis :=
  match fs file_path with
  | Some (TxtFile text_content) =>
      let pii_items := detect_pii db PhoneNumberMatcher text_content in
      Some {| an_text := text_content;
              an_pii_items := pii_items;
              an_paragraphs := None |}
  | _ => None
  end.

End Process.

End Analysis.
Import Analysis.

Module Routes.

Definition UPLOAD_FOLDER : string := "/tmp/uploads".
Definition PROCESSED_FOLDER : string := "/tmp/processed".

Definition ends_with_slash (s : string) : bool :=
  match list_ascii_of_string s with
  | [] => false
  | c :: l => Ascii.eqb (last l c) "/"
  end.

(** [os.path.join(a, b)] on POSIX: an absolute [b] replaces [a]. *)
Definition path_join (a b : string) : string :=
  if String.prefix "/" b then b
  else if String.eqb a "" || ends_with_slash a then (a ++ b)%string
  else (a ++ "/" ++ b)%string.

(** The JSON body of a redaction request, for a body that is an object
    whose ['file_id'] and ['document_type'] are strings and whose
    ['redactions'] is a list of objects with a string ['text']; a key that
    is absent is [None].  Names are kept as byte strings. *)
Record redact_request := {
  file_id : option string;
  redactions : option (list redaction_item);
  document_type : option string
}.

(** What a route returns: a JSON error with its status, the JSON of a
    successful redaction (status 200), or a file sent as an attachment. *)
Inductive response :=
| JsonError (error : string) (status : nat)
| JsonRedacted (output_file download_url : string)
| SentFile (f : file) (download_name : string).

Section Handlers.
(** [str(e)] of the exception caught by a handler. *)
Variable failure_text : string.

(** [redact_document], on the names [os.listdir(UPLOAD_FOLDER)] returned
    and the value [request.get_json()] returned: [None] when it returned
    [None], as it does for the JSON body [null].  A request for which
    [get_json] itself fails (no JSON content type, a body that does not
    parse) never reaches the function's own code and is not modelled. *)
Definition redact_document (listing : list string) (fs : filesystem)
  (data : option redact_request) : response * filesystem :=
  match data with
  | Some {| file_id := Some file_id; redactions := Some redactions;
            document_type := dt |} =>
      let document_type := match dt with Some d => d | None => "txt"%string end in
      let original_files := filter (String.prefix file_id) listing in
      match original_files with
      | [] => (JsonError "Original file not found" 404, fs)
      | original_file :: _ =>
          let original_path := path_join UPLOAD_FOLDER original_file in
          let output_filename :=
            (file_id ++ "_redacted." ++ document_type)%string in
          let output_path := path_join PROCESSED_FOLDER output_filename in
          let ok := JsonRedacted output_filename
                      ("/api/redaction/download/" ++ output_filename)%string in
          let failed := JsonError ("Redaction failed: " ++ failure_text)%string 500 in
          if String.eqb document_type "docx" then
            match redact_docx fs original_path redactions output_path with
            | Some (fs', _) => (ok, fs')
            | None => (failed, fs)
            end
          else if String.eqb document_type "txt" then
            match redact_txt fs original_path redactions output_path with
            | Some (fs', _) => (ok, fs')
            | None => (failed, fs)
            end
          else (ok, fs)
      end
  | _ => (JsonError "Missing required data" 400, fs)
  end.


End Handlers.

End Routes.
Import Routes.

(* ================================================================= *)
(** * Vocabulary of the further properties *)

Module MoreProps.

(** The least and the greatest number of characters a pattern can match
    ([None]: no bound). *)
Fixpoint min_width (r : regex) : nat :=
  match r with
  | Empty | Fail | Boundary => 0
  | Lit _ | Digit | Space | OneOf _ => 1
  | Seq r1 r2 => min_width r1 + min_width r2
  | Alt r1 r2 => Nat.min (min_width r1) (min_width r2)
  | Group r1 => min_width r1
  | RepeatOne _ lo _ => lo
  | Repeat r1 lo _ => lo * min_width r1
  end.

Fixpoint max_width (r : regex) : option nat :=
  match r with
  | Empty | Fail | Boundary => Some 0
  | Lit _ | Digit | Space | OneOf _ => Some 1
  | Seq r1 r2 =>
      match max_width r1, max_width r2 with
      | Some a, Some b => Some (a + b)
      | _, _ => None
      end
  | Alt r1 r2 =>
      match max_width r1, max_width r2 with
      | Some a, Some b => Some (Nat.max a b)
      | _, _ => None
      end
  | Group r1 => max_width r1
  | RepeatOne _ _ hi => hi
  | Repeat r1 _ hi => option_map (Nat.mul hi) (max_width r1)
  end.

(** A width within the bounds. *)
Definition width_ok (r : regex) (w : nat) : Prop :=
  min_width r <= w /\ forall m, max_width r = Some m -> w <= m.

(** What the rounds of a greedy repeat consume together, between
    [rounds_min] and [rounds_max] rounds of a body that consumes between
    [mn] and [mx] characters accepted by [ok]. *)
Definition consumes (T : pystr) (mn : nat) (mx : option nat)
  (ok : codepoint -> bool) (pos : nat) (k : nat -> option nat) (e : nat)
  (rounds_min rounds_max : nat) : Prop :=
  exists w,
    rounds_min * mn <= w /\
    (forall m, mx = Some m -> w <= rounds_max * m) /\
    pos + w <= length T /\
    Forall (fun c => ok c = true) (firstn w (skipn pos T)) /\
    k (pos + w) = Some e.

(** The pattern begins, or ends, with [\b]. *)
Fixpoint starts_with_boundary (r : regex) : bool :=
  match r with
  | Boundary => true
  | Seq r1 _ => starts_with_boundary r1
  | Group r1 => starts_with_boundary r1
  | _ => false
  end.

Fixpoint ends_with_boundary (r : regex) : bool :=
  match r with
  | Boundary => true
  | Seq _ r2 => ends_with_boundary r2
  | Group r1 => ends_with_boundary r1
  | _ => false
  end.

(** The characters a pattern can consume: those one of its one-character
    items accepts. *)
Fixpoint admits (db : unicode_db) (fl : flags) (r : regex) (c : codepoint)
  : bool :=
  match r with
  | Empty | Fail | Boundary => false
  | Lit _ | Digit | Space | OneOf _ => char_match db fl r c
  | Seq r1 r2 | Alt r1 r2 => admits db fl r1 c || admits db fl r2 c
  | Group r1 => admits db fl r1 c
  | RepeatOne r1 _ _ => char_match db fl r1 c
  | Repeat r1 _ _ => admits db fl r1 c
  end.

(** The pattern of a regex category. *)
Definition pattern_of (k : pii_kind) : option pattern :=
  match k with
  | email => Some email_pattern
  | phone => None
  | ssn => Some ssn_pattern
  | credit_card => Some credit_card_pattern
  | date => Some date_pattern
  | iban => Some iban_pattern
  | address => Some address_pattern
  end.

(** The confidence each branch of [detect_pii] writes into its items. *)
Definition confidence_of (k : pii_kind) : confidence_tag :=
  match k with
  | email | phone | ssn | iban => high
  | credit_card | address => medium
  | date => low
  end.

(** No character of [a] is a character of [b]. *)
Definition no_common_char (a b : pystr) : Prop :=
  forall c, In c a -> ~ In c b.

(** A literal that is not empty and has no character of the sentinel. *)
Definition plain_literal (l : pystr) : Prop :=
  l <> [] /\ no_common_char l REDACTED.

Definition plain_literalb (l : pystr) : bool :=
  negb (pystr_eqb l []) && forallb (fun c => negb (mem c REDACTED)) l.

(** A paragraph with a carriage return where the literal has a line
    feed. *)
Definition broken_line_paragraph : pystr :=
  cp "x" :: carriage_return :: str "y Z".

Definition two_line_literal : redaction_item :=
  {| text := cp "x" :: line_feed :: str "y" |}.

(** A store with one uploaded text and one uploaded document, and the
    listing of the upload folder. *)
Definition sample_uploads : filesystem :=
  write_file
    (write_file empty_fs "/tmp/uploads/7f3a.txt"
       (TxtFile (str "SSN 123-45-6789 on file")))
    "/tmp/uploads/9c1e.docx"
    (DocxFile [str "Email: a@b.com"; str "12 Main"; str "Street"]).

Definition sample_listing : list string := ["7f3a.txt"; "9c1e.docx"]%string.

Definition sample_request : redact_request :=
  {| file_id := Some "7f3a"%string;
     redactions := Some [item "123-45-6789"];
     document_type := None |}.

End MoreProps.
Import MoreProps.

(* ================================================================= *)
(** * What a pattern matches, as a set of strings *)

Module Shapes.

Definition is_char_item (r : regex) : bool :=
  match r with
  | Lit _ | Digit | Space | OneOf _ => true
  | _ => false
  end.

(** The strings a pattern matches, position in the text left aside
    ([\b] matches the empty string here). *)
Inductive Matches (db : unicode_db) (fl : flags) : regex -> pystr -> Prop :=
| Matches_Empty : Matches db fl Empty []
| Matches_Boundary : Matches db fl Boundary []
| Matches_char r c :
    is_char_item r = true -> char_match db fl r c = true ->
    Matches db fl r [c]
| Matches_Seq r1 r2 s1 s2 :
    Matches db fl r1 s1 -> Matches db fl r2 s2 ->
    Matches db fl (Seq r1 r2) (s1 ++ s2)
| Matches_Alt_l r1 r2 s :
    Matches db fl r1 s -> Matches db fl (Alt r1 r2) s
| Matches_Alt_r r1 r2 s :
    Matches db fl r2 s -> Matches db fl (Alt r1 r2) s
| Matches_Group r s :
    Matches db fl r s -> Matches db fl (Group r) s
| Matches_RepeatOne r lo hi s :
    lo <= length s ->
    (forall h, hi = Some h -> length s <= h) ->
    Forall (fun c => char_match db fl r c = true) s ->
    Matches db fl (RepeatOne r lo hi) s
| Matches_Repeat_stop r hi :
    Matches db fl (Repeat r 0 hi) []
| Matches_Repeat_round r lo hi s1 s2 :
    Matches db fl r s1 -> Matches db fl (Repeat r (pred lo) hi) s2 ->
    Matches db fl (Repeat r lo (S hi)) (s1 ++ s2).

(** Between [lo] and [hi] digits; at most one character accepted by
    [ok]; at least [lo] characters accepted by [ok]. *)
Definition digits (db : unicode_db) (lo hi : nat) (s : pystr) : Prop :=
  lo <= length s <= hi /\ Forall (fun c => is_digit db c = true) s.

Definition at_most_one (ok : codepoint -> bool) (s : pystr) : Prop :=
  s = [] \/ exists c, s = [c] /\ ok c = true.

Definition all_of (ok : codepoint -> bool) (lo : nat) (s : pystr) : Prop :=
  lo <= length s /\ Forall (fun c => ok c = true) s.

(** The flags of a pattern compiled without [re.IGNORECASE]. *)
Definition plain_flags : flags := {| ignorecase := false |}.

(** Between [lo] and [hi] characters accepted by [ok]. *)
Definition run_of (ok : codepoint -> bool) (lo hi : nat) (s : pystr) : Prop :=
  lo <= length s <= hi /\ Forall (fun c => ok c = true) s.

Definition is_hyphen (c : codepoint) : bool := N.eqb c (cp "-").

Definition is_date_separator (c : codepoint) : bool :=
  N.eqb c (cp "/") || N.eqb c (cp "-").

Definition is_capital (c : codepoint) : bool := in_range (cp "A") (cp "Z") c.

Definition is_ascii_letter (c : codepoint) : bool :=
  in_range (cp "A") (cp "Z") c || in_range (cp "a") (cp "z") c.

Definition is_ascii_digit (c : codepoint) : bool :=
  in_range (cp "0") (cp "9") c.

(** The three character sets of the e-mail pattern. *)
Definition is_local_char (c : codepoint) : bool :=
  is_ascii_letter c || is_ascii_digit c || mem c (str "._%+-").

Definition is_domain_char (c : codepoint) : bool :=
  is_ascii_letter c || is_ascii_digit c || mem c (str ".-").

Definition is_tld_char (c : codepoint) : bool :=
  is_ascii_letter c || N.eqb c (cp "|").

Definition is_capital_or_digit (c : codepoint) : bool :=
  is_capital c || is_ascii_digit c.

(** The character between the groups of a card number. *)
Definition is_card_separator (db : unicode_db) (c : codepoint) : bool :=
  is_hyphen c || is_space db c.

(** The flags of the address pattern, and what they make of a letter of
    the pattern and of its set of letters and whitespace. *)
Definition ignorecase_flags : flags := {| ignorecase := true |}.

Definition matches_letter (db : unicode_db) (a c : codepoint) : bool :=
  char_match db ignorecase_flags (Lit a) c.

Definition is_name_char (db : unicode_db) (c : codepoint) : bool :=
  char_match db ignorecase_flags
    (OneOf [SRange (cp "A") (cp "Z"); SRange (cp "a") (cp "z"); SSpace]) c.

(** [s] spells the word [w], letter by letter, case ignored. *)
Definition spells (db : unicode_db) (w : string) (s : pystr) : Prop :=
  Forall2 (fun a c => matches_letter db a c = true) (str w) s.

Definition street_suffixes : list string :=
  [ "Street"; "St"; "Avenue"; "Ave"; "Road"; "Rd";
    "Boulevard"; "Blvd"; "Lane"; "Ln"; "Drive"; "Dr" ]%string.

End Shapes.
Import Shapes.
(* ================================================================= *)
(** * Facts about the string primitives *)

Section StringFacts.

Lemma startswith_iff (p s : pystr) :
  startswith p s = true <-> exists rest, s = p ++ rest.
Proof.
  revert s; induction p as [|a p IH]; intros s; simpl.
  - split; [intros _; now exists s | reflexivity].
  - destruct s as [|b s].
    + split; [discriminate | intros [rest H]; discriminate].
    + rewrite andb_true_iff, N.eqb_eq, IH. split.
      * intros [-> [rest ->]]. now exists rest.
      * intros [rest H]. injection H as -> ->. split; [reflexivity | now exists rest].
Qed.

Lemma contains_iff (sub s : pystr) :
  contains sub s = true <-> occurs sub s.
Proof.
  unfold occurs. induction s as [|c s IH].
  - simpl. rewrite orb_false_r, startswith_iff. split.
    + intros [rest H]. exists [], rest. exact H.
    + intros [pre [rest H]]. destruct pre; simpl in H.
      * now exists rest.
      * discriminate.
  - cbn [contains]. rewrite orb_true_iff, startswith_iff, IH. split.
    + intros [[rest H] | [pre [rest H]]].
      * exists [], rest. exact H.
      * exists (c :: pre), rest. now rewrite H.
    + intros [pre [rest H]]. destruct pre as [|d pre]; simpl in H.
      * left. now exists rest.
      * right. injection H as _ H. now exists pre, rest.
Qed.

Lemma contains_false_iff (sub s : pystr) :
  contains sub s = false <-> ~ occurs sub s.
Proof.
  rewrite <- contains_iff. destruct (contains sub s); split; intros H;
    try reflexivity; try discriminate; try (intros H'; discriminate).
  exfalso. now apply H.
Qed.

Lemma contains_empty (s : pystr) : contains [] s = true.
Proof. destruct s; reflexivity. Qed.

(** Passing over [k] pending characters of an occurrence. *)
Lemma replace_scan_skip (old new : pystr) (k : nat) (s : pystr) :
  replace_scan old new k s = replace_scan old new 0 (skipn k s).
Proof.
  revert k; induction s as [|c s IH]; intros [|k]; simpl; try reflexivity.
  apply IH.
Qed.

Lemma replace_scan_found (old new rest : pystr) :
  old <> [] ->
  replace_scan old new 0 (old ++ rest) = new ++ replace_scan old new 0 rest.
Proof.
  intros Hne. destruct old as [|a old]; [contradiction|].
  cbn [app replace_scan].
  assert (H : startswith (a :: old) (a :: old ++ rest) = true)
    by (apply startswith_iff; now exists rest).
  rewrite H. f_equal. rewrite replace_scan_skip. f_equal.
  replace (length (a :: old) - 1) with (length old) by (simpl; lia).
  rewrite skipn_app, skipn_all, Nat.sub_diag. reflexivity.
Qed.

Lemma replace_scan_step (old new : pystr) (c : codepoint) (s : pystr) :
  startswith old (c :: s) = false ->
  replace_scan old new 0 (c :: s) = c :: replace_scan old new 0 s.
Proof. intros H. cbn [replace_scan]. now rewrite H. Qed.

Lemma replace_scan_absent (old new s : pystr) :
  contains old s = false -> replace_scan old new 0 s = s.
Proof.
  induction s as [|c s IH]; [reflexivity|].
  cbn [contains]. rewrite orb_false_iff. intros [H1 H2].
  rewrite replace_scan_step by exact H1. f_equal. now apply IH.
Qed.

(** A literal that does not occur is replaced nowhere. *)
Lemma replace_absent (s old new : pystr) :
  contains old s = false -> replace s old new = s.
Proof.
  destruct old as [|a old].
  - now rewrite contains_empty.
  - apply replace_scan_absent.
Qed.

Lemma replace_empty (s new : pystr) :
  replace s [] new = sentinel_at_every_gap new s.
Proof.
  unfold replace. induction s as [|c s IH]; simpl.
  - apply app_nil_r.
  - now rewrite <- IH.
Qed.

Lemma ReplaceAll_cons (old new : pystr) (c : codepoint) (s out : pystr) :
  startswith old (c :: s) = false ->
  ReplaceAll old new s out ->
  ReplaceAll old new (c :: s) (c :: out).
Proof.
  intros Hs H. inversion H as [s0 He | s0 Hne Habs | pre rest out0 Hne Hl Hr]; subst.
  - discriminate.
  - apply ReplaceAll_absent; [exact Hne|].
    intros pre rest Heq. destruct pre as [|d pre]; simpl in Heq.
    + assert (Ht : startswith old (c :: out) = true)
        by (apply startswith_iff; now exists rest).
      congruence.
    + injection Heq as _ Heq. exact (Habs _ _ Heq).
  - change (ReplaceAll old new ((c :: pre) ++ old ++ rest) ((c :: pre) ++ new ++ out0)).
    apply ReplaceAll_first; [exact Hne| |exact Hr].
    intros pre1 rest1 Heq. destruct pre1 as [|d pre1]; simpl in Heq.
    + assert (Ht : startswith old (c :: pre ++ old ++ rest) = true)
        by (apply startswith_iff; now exists rest1).
      congruence.
    + injection Heq as _ Heq. simpl. apply le_n_S. exact (Hl _ _ Heq).
Qed.

Lemma replace_scan_ReplaceAll (old new : pystr) :
  old <> [] ->
  forall n s, length s <= n ->
  ReplaceAll old new s (replace_scan old new 0 s).
Proof.
  intros Hne. induction n as [|n IH]; intros s Hlen.
  - destruct s; [|simpl in Hlen; lia].
    apply ReplaceAll_absent; [exact Hne|].
    intros pre rest H. symmetry in H.
    apply app_eq_nil in H as [_ H]. apply app_eq_nil in H as [H _]. contradiction.
  - destruct s as [|c s].
    + apply (IH []). simpl. lia.
    + destruct (startswith old (c :: s)) eqn:Hs.
      * apply startswith_iff in Hs as [rest Hs]. rewrite Hs.
        rewrite replace_scan_found by exact Hne.
        apply (@ReplaceAll_first old new []); [exact Hne| |].
        -- intros pre1 rest1 _. simpl. lia.
        -- apply IH. assert (Hl : length (c :: s) = length (old ++ rest)) by now rewrite Hs.
           rewrite length_app in Hl. simpl in Hl, Hlen.
           destruct old; [contradiction|]. simpl in Hl. lia.
      * rewrite replace_scan_step by exact Hs.
        apply ReplaceAll_cons; [exact Hs|]. apply IH. simpl in Hlen. lia.
Qed.

(** [str.replace] replaces all occurrences, leftmost first. *)
Lemma replace_ReplaceAll (s old new : pystr) :
  ReplaceAll old new s (replace s old new).
Proof.
  destruct old as [|a old].
  - rewrite replace_empty. now apply ReplaceAll_gaps.
  - apply (@replace_scan_ReplaceAll (a :: old) new) with (n := length s);
      [discriminate | lia].
Qed.

Lemma app_same_length (A : Type) (a b x y : list A) :
  length a = length b -> a ++ x = b ++ y -> a = b /\ x = y.
Proof.
  revert b; induction a as [|h a IH]; intros [|h' b] Hl H;
    simpl in *; try discriminate.
  - now split.
  - injection H as -> H. injection Hl as Hl.
    destruct (IH b Hl H) as [-> ->]. now split.
Qed.

(** The relation determines the result. *)
Lemma ReplaceAll_deterministic (old new s out1 out2 : pystr) :
  ReplaceAll old new s out1 -> ReplaceAll old new s out2 -> out1 = out2.
Proof.
  intros H1; revert out2.
  induction H1 as [s He | s Hne Habs | pre rest out Hne Hl Hr IH]; intros out2 H2.
  - inversion H2; subst; try reflexivity; contradiction.
  - inversion H2 as [s0 He | s0 Hne' Habs' | pre rest out Hne' Hl Hr]; subst.
    + contradiction.
    + reflexivity.
    + exfalso. now apply (Habs pre rest).
  - inversion H2 as [s0 He | s0 Hne' Habs' | pre' rest' out' Hne' Hl' Hr' Heq]; subst.
    + contradiction.
    + exfalso. now apply (Habs' pre rest).
    + assert (Hlen : length pre' = length pre).
      { apply Nat.le_antisymm; [apply (Hl' _ _ Heq) | apply (Hl _ _ (eq_sym Heq))]. }
      apply app_same_length in Heq; [|exact Hlen].
      destruct Heq as [-> Heq]. apply app_inv_head in Heq. subst rest'.
      f_equal. f_equal. now apply IH.
Qed.

End StringFacts.

(* ================================================================= *)
(** * Facts about [sorted] *)

Section SortFacts.
Variable A : Type.
Variable key : A -> Z.

Lemma insert_by_key_perm (x : A) (l : list A) :
  Permutation (insert_by_key key x l) (x :: l).
Proof.
  induction l as [|y l IH]; simpl.
  - apply Permutation_refl.
  - destruct (key x <=? key y)%Z.
    + apply Permutation_refl.
    + apply perm_trans with (y :: x :: l).
      * now apply perm_skip.
      * apply perm_swap.
Qed.

Lemma sorted_perm (l : list A) : Permutation (sorted key l) l.
Proof.
  induction l as [|x l IH]; simpl.
  - apply perm_nil.
  - apply perm_trans with (x :: sorted key l).
    + apply insert_by_key_perm.
    + now apply perm_skip.
Qed.

Lemma insert_by_key_sorted (x : A) (l : list A) :
  StronglySorted (key_le key) l -> StronglySorted (key_le key) (insert_by_key key x l).
Proof.
  induction 1 as [|y l Hs IH Hy]; simpl.
  - constructor; constructor.
  - destruct (key x <=? key y)%Z eqn:E.
    + apply Z.leb_le in E. constructor.
      * now constructor.
      * constructor; [exact E|].
        eapply Forall_impl; [|exact Hy]. unfold key_le. intros; lia.
    + apply Z.leb_gt in E. constructor; [exact IH|].
      apply (Permutation_Forall (Permutation_sym (insert_by_key_perm x l))).
      constructor; [unfold key_le; lia | exact Hy].
Qed.

Lemma sorted_ascending (l : list A) : StronglySorted (key_le key) (sorted key l).
Proof.
  induction l as [|x l IH]; simpl.
  - constructor.
  - now apply insert_by_key_sorted.
Qed.

(** Elements with the same key keep their order. *)
Lemma insert_by_key_stable (z : Z) (x : A) (l : list A) :
  filter (fun a => Z.eqb (key a) z) (insert_by_key key x l) =
  filter (fun a => Z.eqb (key a) z) (x :: l).
Proof.
  induction l as [|y l IH]; [reflexivity|].
  cbn [insert_by_key]. destruct (key x <=? key y)%Z eqn:E; [reflexivity|].
  apply Z.leb_gt in E. cbn [filter] in *. rewrite IH.
  destruct (key x =? z)%Z eqn:Ex; [|reflexivity].
  apply Z.eqb_eq in Ex.
  assert (Ey : (key y =? z)%Z = false) by (apply Z.eqb_neq; lia).
  now rewrite Ey.
Qed.

Lemma sorted_stable (z : Z) (l : list A) :
  filter (fun a => Z.eqb (key a) z) (sorted key l) =
  filter (fun a => Z.eqb (key a) z) l.
Proof.
  induction l as [|x l IH]; [reflexivity|].
  cbn [sorted fold_right]. rewrite insert_by_key_stable.
  cbn [filter]. fold (sorted key l). now rewrite IH.
Qed.

Lemma insert_by_key_least (x : A) (l : list A) :
  Forall ((key_le key) x) l -> insert_by_key key x l = x :: l.
Proof.
  intros H. destruct l as [|y l]; [reflexivity|].
  inversion H as [|? ? Hy _]; subst. simpl.
  unfold key_le in Hy. apply Z.leb_le in Hy. now rewrite Hy.
Qed.

Lemma sorted_of_ascending (l : list A) :
  StronglySorted (key_le key) l -> sorted key l = l.
Proof.
  induction 1 as [|x l Hs IH Hx]; [reflexivity|].
  cbn [sorted fold_right]. fold (sorted key l). rewrite IH.
  now apply insert_by_key_least.
Qed.

Lemma filter_insert_by_key (f : A -> bool) (x : A) (l : list A) :
  StronglySorted (key_le key) l ->
  filter f (insert_by_key key x l) =
  if f x then insert_by_key key x (filter f l) else filter f l.
Proof.
  induction 1 as [|y l Hs IH Hy]; simpl.
  - now destruct (f x).
  - destruct (key x <=? key y)%Z eqn:E.
    + cbn [filter]. destruct (f x) eqn:Fx; [|reflexivity].
      symmetry. apply insert_by_key_least.
      apply Z.leb_le in E.
      assert (Hall : Forall ((key_le key) x) (y :: l)).
      { constructor; [exact E|].
        eapply Forall_impl; [|exact Hy]. unfold key_le; intros; lia. }
      change (Forall ((key_le key) x) (filter f (y :: l))).
      apply Forall_forall. intros a Ha. apply filter_In in Ha as [Ha _].
      now apply (proj1 (Forall_forall _ _) Hall).
    + cbn [filter]. rewrite IH.
      destruct (f y) eqn:Fy, (f x) eqn:Fx; try reflexivity.
      simpl. now rewrite E.
Qed.

(** Sorting commutes with selecting. *)
Lemma filter_sorted (f : A -> bool) (l : list A) :
  filter f (sorted key l) = sorted key (filter f l).
Proof.
  induction l as [|x l IH]; [reflexivity|].
  cbn [sorted fold_right]. fold (sorted key l).
  rewrite filter_insert_by_key by apply sorted_ascending.
  cbn [filter]. destruct (f x); rewrite IH; reflexivity.
Qed.



End SortFacts.

(* ================================================================= *)
(** * Facts about the matcher *)

Section EngineFacts.
Variable db : unicode_db.
Variable fl : flags.
Variable T : pystr.

Lemma count_run_le (r : regex) (s : pystr) (limit : option nat) :
  count_run db fl r limit s <= length s.
Proof.
  revert limit; induction s as [|c s IH]; intros limit; simpl; [lia|].
  destruct limit as [[|n]|]; [lia | |];
    destruct (char_match db fl r c); try lia;
    apply le_n_S, IH.
Qed.

Lemma backoff_sound (k : nat -> option nat) (pos lo n e : nat) :
  backoff k pos lo n = Some e ->
  exists i, i <= n /\ k (pos + i) = Some e.
Proof.
  induction n as [|n IH]; simpl.
  - destruct (0 <? lo); [discriminate|].
    destruct (k (pos + 0)) eqn:E; [|discriminate].
    intros H; injection H as <-. exists 0. split; [lia | exact E].
  - destruct (S n <? lo); [discriminate|].
    destruct (k (pos + S n)) eqn:E.
    + intros H; injection H as <-. exists (S n). split; [lia | exact E].
    + intros H. destruct (IH H) as [i [Hi Hk]]. exists i. split; [lia | exact Hk].
Qed.

Lemma repeat_until_sound (body : nat -> (nat -> option nat) -> option nat)
  (k : nat -> option nat) :
  (forall pos k0 e, pos <= length T -> body pos k0 = Some e ->
     exists p, pos <= p /\ p <= length T /\ k0 p = Some e) ->
  forall budget need last pos e, pos <= length T ->
  repeat_until body k budget need last pos = Some e ->
  exists p, pos <= p /\ p <= length T /\ k p = Some e.
Proof.
  intros Hbody. induction budget as [|budget IHb]; intros need last pos e Hpos H.
  - destruct need; simpl in H; [|discriminate].
    exists pos. repeat split; [lia | exact Hpos | exact H].
  - destruct need as [|need]; simpl in H.
    + destruct (last_is last pos).
      { exists pos. repeat split; [lia | exact Hpos | exact H]. }
      match type of H with
      | match ?m with _ => _ end = _ => destruct m eqn:E
      end.
      * injection H as <-. apply Hbody in E as [p [H1 [H2 E]]]; [|exact Hpos].
        apply IHb in E as [q [H3 [H4 E]]]; [|exact H2].
        exists q. repeat split; [lia | exact H4 | exact E].
      * exists pos. repeat split; [lia | exact Hpos | exact H].
    + apply Hbody in H as [p [H1 [H2 H]]]; [|exact Hpos].
      apply IHb in H as [q [H3 [H4 H]]]; [|exact H2].
      exists q. repeat split; [lia | exact H4 | exact H].
Qed.

(** A successful match hands a position between its start and the end of
    the text to the rest of the pattern. *)
Lemma match_at_sound (r : regex) :
  forall pos k e, pos <= length T ->
  match_at db fl T r pos k = Some e ->
  exists p, pos <= p /\ p <= length T /\ k p = Some e.
Proof.
  assert (Hchar : forall r0 pos (k : nat -> option nat) e,
    match nth_error T pos with
    | Some c => if char_match db fl r0 c then k (S pos) else None
    | None => None
    end = Some e -> exists p, pos <= p /\ p <= length T /\ k p = Some e).
  { intros r0 pos k e H. destruct (nth_error T pos) as [c|] eqn:E; [|discriminate].
    destruct (char_match db fl r0 c); [|discriminate].
    assert (pos < length T) by (apply nth_error_Some; congruence).
    exists (S pos). repeat split; [lia | lia | exact H]. }
  induction r as [| |c| | |items| |r1 IH1 r2 IH2|r1 IH1 r2 IH2|r1 IH1
                  |r1 IH1 lo hi|r1 IH1 lo hi];
    intros pos k e Hpos H; cbn [match_at] in H.
  - exists pos. repeat split; [lia | exact Hpos | exact H].
  - discriminate.
  - now apply (Hchar (Lit c)).
  - now apply (Hchar Digit).
  - now apply (Hchar Space).
  - now apply (Hchar (OneOf items)).
  - destruct (at_boundary db T pos); [|discriminate].
    exists pos. repeat split; [lia | exact Hpos | exact H].
  - apply IH1 in H as [p [H1 [H2 H]]]; [|exact Hpos].
    apply IH2 in H as [q [H3 [H4 H]]]; [|exact H2].
    exists q. repeat split; [lia | exact H4 | exact H].
  - destruct (match_at db fl T r1 pos k) eqn:E.
    + injection H as <-. now apply IH1 in E.
    + now apply IH2 in H.
  - now apply IH1 in H.
  - apply backoff_sound in H as [i [Hi H]].
    pose proof (count_run_le r1 (skipn pos T) hi) as Hc.
    rewrite length_skipn in Hc.
    exists (pos + i). repeat split; [lia | lia | exact H].
  - eapply repeat_until_sound; [|exact Hpos|exact H].
    intros p k0 e0. apply IH1.
Qed.

Lemma match_from_sound (r : regex) (adv : bool) (start e : nat) :
  start <= length T ->
  match_from db fl T r adv start = Some e ->
  start <= e /\ e <= length T /\ (adv = true -> e <> start).
Proof.
  intros Hs H. unfold match_from in H.
  apply match_at_sound in H as [p [H1 [H2 H]]]; [|exact Hs].
  destruct (adv && (p =? start)) eqn:E; [discriminate|].
  injection H as <-. repeat split; [exact H1 | exact H2|].
  intros ->. simpl in E. now apply Nat.eqb_neq in E.
Qed.

Lemma search_from_sound (r : regex) (n : nat) :
  forall adv pos s e, pos + n <= length T ->
  search_from db fl T r adv pos n = Some (s, e) ->
  pos <= s /\ s <= e /\ e <= length T /\ (adv = true -> s = pos -> e <> s).
Proof.
  induction n as [|n IH]; intros adv pos s e Hpos H; simpl in H;
    destruct (match_from db fl T r adv pos) as [e'|] eqn:E.
  - injection H as <- <-. apply match_from_sound in E; [|lia].
    destruct E as [H1 [H2 H3]]. repeat split; try lia. intros Ha _. now apply H3.
  - discriminate.
  - injection H as <- <-. apply match_from_sound in E; [|lia].
    destruct E as [H1 [H2 H3]]. repeat split; try lia. intros Ha _. now apply H3.
  - apply IH in H; [|lia]. destruct H as [H1 [H2 [H3 _]]].
    repeat split; try lia.
Qed.

Lemma search_sound (r : regex) (adv : bool) (pos s e : nat) :
  search db fl T r adv pos = Some (s, e) ->
  pos <= s /\ s <= e /\ e <= length T /\ (adv = true -> s = pos -> e <> s).
Proof.
  unfold search. destruct (length T <? pos) eqn:E; [discriminate|].
  apply Nat.ltb_ge in E. apply search_from_sound. lia.
Qed.

(** The matches of a scan follow one another. *)
Lemma scan_successive (r : regex) (fuel : nat) :
  forall pos adv, successive (length T) pos (scan db fl T r fuel pos adv).
Proof.
  induction fuel as [|fuel IH]; intros pos adv; simpl; [exact I|].
  destruct (search db fl T r adv pos) as [[s e]|] eqn:E; [|exact I].
  apply search_sound in E as [H1 [H2 [H3 _]]]. simpl.
  repeat split; try assumption. apply IH.
Qed.

(** The scan never runs out of rounds: any supply of at least
    [rounds_left] gives the same matches. *)
Lemma scan_fuel_irrelevant (r : regex) (fuel : nat) :
  forall fuel' pos adv,
  rounds_left (length T) pos adv <= fuel -> rounds_left (length T) pos adv <= fuel' ->
  scan db fl T r fuel pos adv = scan db fl T r fuel' pos adv.
Proof.
  induction fuel as [|fuel IH]; intros fuel' pos adv H1 H2.
  - unfold rounds_left in H1. destruct adv; lia.
  - destruct fuel' as [|fuel'].
    + unfold rounds_left in H2. destruct adv; lia.
    + simpl. destruct (search db fl T r adv pos) as [[s e]|] eqn:E; [|reflexivity].
      f_equal. apply search_sound in E as [Ha [Hb [Hc Hd]]].
      assert (Hlt : rounds_left (length T) e (e =? s) < rounds_left (length T) pos adv).
      { unfold rounds_left in *. destruct (e =? s) eqn:Ee.
        - apply Nat.eqb_eq in Ee. subst e. destruct adv.
          + destruct (Nat.eq_dec s pos) as [->|Hne].
            * exfalso. now apply Hd.
            * lia.
          + lia.
        - apply Nat.eqb_neq in Ee. destruct adv; lia. }
      apply IH; lia.
Qed.

Lemma finditer_successive (r : regex) :
  successive (length T) 0 (finditer db fl T r).
Proof. apply scan_successive. Qed.

Lemma finditer_enough_fuel (r : regex) (extra : nat) :
  scan db fl T r (2 * length T + 2 + extra) 0 false = finditer db fl T r.
Proof.
  apply scan_fuel_irrelevant; unfold rounds_left; lia.
Qed.

End EngineFacts.

(* ================================================================= *)
(** * Facts about [detect_pii] *)

Section DetectFacts.
Variable db : unicode_db.
Variable PhoneNumberMatcher : pystr -> iteration phone_match.

Lemma detect_pattern_app (p : pattern) (kind : pii_kind)
  (conf : confidence_tag) (T : pystr) (pii_items : list pii_item) :
  detect_pattern db p kind conf T pii_items =
  pii_items ++ pattern_items db p kind conf T.
Proof.
  unfold detect_pattern, pattern_items.
  generalize (pattern_finditer db p T) as ms. intros ms. revert pii_items.
  induction ms as [|m ms IH]; intros pii_items; simpl.
  - now rewrite app_nil_r.
  - rewrite IH. unfold append_match. now rewrite <- app_assoc.
Qed.

Lemma yielded_yields_then (A : Type) (ms : list A) (last : iteration A) :
  yielded (yields_then ms last) = ms ++ yielded last.
Proof.
  induction ms as [|m ms IH]; simpl; [reflexivity | now rewrite IH].
Qed.

Lemma detect_phone_app (it : iteration phone_match) (T : pystr)
  (pii_items : list pii_item) :
  detect_phone it T pii_items = pii_items ++ phone_items it T.
Proof.
  unfold phone_items. revert pii_items.
  induction it as [m rest IH| |]; intros pii_items; simpl.
  - rewrite IH. now rewrite <- app_assoc.
  - now rewrite app_nil_r.
  - now rewrite app_nil_r.
Qed.

(** The list that is sorted is the pool of all categories. *)
Lemma collect_pii_pooled (T : pystr) :
  collect_pii db PhoneNumberMatcher T = pooled db PhoneNumberMatcher T.
Proof.
  unfold collect_pii, pooled.
  rewrite !detect_pattern_app, detect_phone_app.
  rewrite <- !app_assoc. reflexivity.
Qed.

Lemma detect_pii_pooled (T : pystr) :
  detect_pii db PhoneNumberMatcher T =
  sorted pii_start (pooled db PhoneNumberMatcher T).
Proof. unfold detect_pii. now rewrite collect_pii_pooled. Qed.

Lemma filter_kind_pattern_items (k k' : pii_kind) (p : pattern)
  (conf : confidence_tag) (T : pystr) :
  filter (has_kind k) (pattern_items db p k' conf T) =
  if pii_kind_eqb k' k then pattern_items db p k' conf T else [].
Proof.
  unfold pattern_items. induction (pattern_finditer db p T) as [|m ms IH].
  - now destruct (pii_kind_eqb k' k).
  - cbn [map filter]. unfold has_kind at 1. cbn [pii_type]. rewrite IH.
    now destruct (pii_kind_eqb k' k).
Qed.

Lemma filter_kind_phone_items (k : pii_kind) (it : iteration phone_match)
  (T : pystr) :
  filter (has_kind k) (phone_items it T) =
  if pii_kind_eqb phone k then phone_items it T else [].
Proof.
  unfold phone_items. induction (yielded it) as [|m ms IH].
  - now destruct k.
  - cbn [map filter]. unfold has_kind at 1. cbn [pii_type]. rewrite IH.
    now destruct k.
Qed.

(** Selecting a category from the pool gives that category's items. *)
Lemma pooled_kind (T : pystr) (k : pii_kind) :
  filter (has_kind k) (pooled db PhoneNumberMatcher T) =
  items_of_kind db PhoneNumberMatcher T k.
Proof.
  unfold pooled. rewrite !filter_app.
  rewrite !filter_kind_pattern_items, filter_kind_phone_items.
  destruct k; simpl; now rewrite ?app_nil_r.
Qed.

Lemma detect_pii_kind (T : pystr) (k : pii_kind) :
  filter (has_kind k) (detect_pii db PhoneNumberMatcher T) =
  sorted pii_start (items_of_kind db PhoneNumberMatcher T k).
Proof.
  rewrite detect_pii_pooled, filter_sorted, pooled_kind. reflexivity.
Qed.

Lemma has_kind_true (k : pii_kind) (i : pii_item) :
  has_kind k i = true <-> pii_type i = k.
Proof.
  unfold has_kind. destruct (pii_type i), k; simpl; split;
    intros H; try reflexivity; discriminate.
Qed.

(** Membership in the result is membership in some category. *)
Lemma detect_pii_In (T : pystr) (i : pii_item) :
  In i (detect_pii db PhoneNumberMatcher T) <->
  In i (items_of_kind db PhoneNumberMatcher T (pii_type i)).
Proof.
  rewrite <- pooled_kind, filter_In, detect_pii_pooled.
  split.
  - intros H. split.
    + now apply (Permutation_in _ (sorted_perm pii_start _)).
    + now apply has_kind_true.
  - intros [H _].
    now apply (Permutation_in _ (Permutation_sym (sorted_perm pii_start _))).
Qed.

End DetectFacts.

Section ScanFacts.

Lemma successive_in_text (len : nat) (l : list (nat * nat)) :
  forall from, successive len from l ->
  Forall (fun m => from <= fst m /\ fst m <= snd m /\ snd m <= len) l.
Proof.
  induction l as [|[s e] l IH]; intros from H; [constructor|].
  simpl in H. destruct H as [H1 [H2 [H3 H4]]]. constructor.
  - simpl. lia.
  - apply IH in H4. eapply Forall_impl; [|exact H4]. simpl. intros; lia.
Qed.

Lemma successive_disjoint (len : nat) (l : list (nat * nat)) :
  forall from, successive len from l ->
  ForallOrdPairs (fun a b => snd a <= fst b) l.
Proof.
  induction l as [|[s e] l IH]; intros from H; [constructor|].
  simpl in H. destruct H as [H1 [H2 [H3 H4]]]. constructor.
  - apply successive_in_text in H4. eapply Forall_impl; [|exact H4].
    simpl. intros; lia.
  - now apply (IH e).
Qed.

Lemma ForallOrdPairs_map (A B : Type) (f : A -> B) (R : B -> B -> Prop)
  (l : list A) :
  ForallOrdPairs (fun a b => R (f a) (f b)) l -> ForallOrdPairs R (map f l).
Proof.
  induction 1 as [|x l Hx Hl IH]; simpl; constructor.
  - apply Forall_map. exact Hx.
  - exact IH.
Qed.

Lemma ForallOrdPairs_impl (A : Type) (R R' : A -> A -> Prop) (l : list A) :
  (forall a b, R a b -> R' a b) ->
  ForallOrdPairs R l -> ForallOrdPairs R' l.
Proof.
  intros HR. induction 1 as [|x l Hx Hl IH]; constructor.
  - eapply Forall_impl; [|exact Hx]. apply HR.
  - exact IH.
Qed.

Lemma ForallOrdPairs_sorted (A : Type) (R : A -> A -> Prop) (l : list A) :
  ForallOrdPairs R l -> StronglySorted R l.
Proof. induction 1; constructor; assumption. Qed.

(** A slice with bounds inside the text is the substring between them. *)
Lemma slice_in_text (T : pystr) (a b : Z) :
  (0 <= a <= b)%Z -> (b <= Z.of_nat (length T))%Z ->
  slice T a b = substring T (Z.to_nat a) (Z.to_nat b).
Proof.
  intros H1 H2. unfold slice, substring, slice_index.
  destruct (a <? 0)%Z eqn:Ea; [apply Z.ltb_lt in Ea; lia|].
  destruct (b <? 0)%Z eqn:Eb; [apply Z.ltb_lt in Eb; lia|].
  rewrite !Z.min_r, !Z.max_r by lia. reflexivity.
Qed.

End ScanFacts.

Section CategoryFacts.
Variable db : unicode_db.

Lemma pattern_finditer_successive (p : pattern) (T : pystr) :
  successive (length T) 0 (pattern_finditer db p T).
Proof. apply finditer_successive. Qed.

(** Every item of a regex category lies in the text and carries the
    substring between its offsets. *)
Lemma pattern_items_in_text (p : pattern) (k : pii_kind)
  (conf : confidence_tag) (T : pystr) :
  Forall (fun i =>
            (0 <= pii_start i <= pii_end i)%Z /\
            (pii_end i <= Z.of_nat (length T))%Z /\
            pii_text i = slice T (pii_start i) (pii_end i))
         (pattern_items db p k conf T).
Proof.
  unfold pattern_items. apply Forall_map.
  pose proof (successive_in_text _ _ _ (pattern_finditer_successive p T)) as H.
  eapply Forall_impl; [|exact H]. intros [s e] Hm. simpl in *.
  repeat split; lia.
Qed.

(** The items of a regex category follow one another without overlap. *)
Lemma pattern_items_disjoint (p : pattern) (k : pii_kind)
  (conf : confidence_tag) (T : pystr) :
  ForallOrdPairs (fun a b => (pii_start a <= pii_end a <= pii_start b)%Z)
                 (pattern_items db p k conf T).
Proof.
  unfold pattern_items. apply ForallOrdPairs_map. simpl.
  pose proof (pattern_finditer_successive p T) as H.
  pose proof (successive_in_text _ _ _ H) as Hin.
  apply successive_disjoint in H.
  revert Hin. induction H as [|m l Hm Hl IH]; intros Hin; constructor.
  - inversion Hin as [|? ? Hm' _]; subst.
    eapply Forall_impl; [|exact Hm]. simpl. intros; lia.
  - apply IH. now inversion Hin.
Qed.

Lemma pattern_items_ascending (p : pattern) (k : pii_kind)
  (conf : confidence_tag) (T : pystr) :
  StronglySorted start_le (pattern_items db p k conf T).
Proof.
  apply ForallOrdPairs_sorted.
  eapply ForallOrdPairs_impl; [|apply pattern_items_disjoint].
  unfold start_le, key_le. simpl. intros; lia.
Qed.

Lemma pattern_items_tag (p : pattern) (k : pii_kind)
  (conf : confidence_tag) (T : pystr) :
  Forall (fun i => pii_type i = k /\ pii_confidence i = conf)
         (pattern_items db p k conf T).
Proof. unfold pattern_items. apply Forall_map, Forall_forall. now intros. Qed.

Lemma phone_items_text (it : iteration phone_match) (T : pystr) :
  Forall (fun i => pii_type i = phone /\ pii_confidence i = high /\
                   pii_text i = slice T (pii_start i) (pii_end i))
         (phone_items it T).
Proof. unfold phone_items. apply Forall_map, Forall_forall. now intros. Qed.

Variable PhoneNumberMatcher : pystr -> iteration phone_match.

(** In the result, the items of a regex category are the matches of that
    category's scan, in scan order. *)
Lemma detect_pii_regex_kind (T : pystr) (k : pii_kind) :
  k <> phone ->
  filter (has_kind k) (detect_pii db PhoneNumberMatcher T) =
  items_of_kind db PhoneNumberMatcher T k.
Proof.
  intros Hk. rewrite detect_pii_kind. apply sorted_of_ascending.
  destruct k; try contradiction; apply pattern_items_ascending.
Qed.





End CategoryFacts.

(* ================================================================= *)
(** * Facts about the redactor *)

Section RedactFacts.

Lemma redact_content_app (c : pystr) (l1 l2 : list redaction_item) :
  redact_content c (l1 ++ l2) = redact_content (redact_content c l1) l2.
Proof. unfold redact_content. apply fold_left_app. Qed.

Lemma redact_paragraph_app (p : pystr) (l1 l2 : list redaction_item) :
  redact_paragraph p (l1 ++ l2) = redact_paragraph (redact_paragraph p l1) l2.
Proof. unfold redact_paragraph. apply fold_left_app. Qed.

(** Assigning a text changes its carriage returns and nothing else. *)
Lemma assign_text_app (s1 s2 : pystr) :
  assign_text (s1 ++ s2) = assign_text s1 ++ assign_text s2.
Proof. apply map_app. Qed.

Lemma assign_text_length (s : pystr) : length (assign_text s) = length s.
Proof. apply length_map. Qed.

Lemma assign_text_plain (s : pystr) :
  ~ In carriage_return s -> assign_text s = s.
Proof.
  intros H. unfold assign_text. rewrite <- (map_id s) at 2.
  apply map_ext_in. intros c Hc.
  destruct (N.eqb_spec c carriage_return) as [->|]; [contradiction | reflexivity].
Qed.

Lemma assign_text_gaps (s : pystr) :
  assign_text (sentinel_at_every_gap REDACTED s) =
  sentinel_at_every_gap REDACTED (assign_text s).
Proof.
  induction s as [|c s IH]; [reflexivity|].
  cbn [sentinel_at_every_gap]. rewrite assign_text_app.
  change (assign_text (c :: sentinel_at_every_gap REDACTED s))
    with (assign_text [c] ++ assign_text (sentinel_at_every_gap REDACTED s)).
  now rewrite IH.
Qed.

Lemma assign_text_keeps_sentinel (s : pystr) :
  occurs REDACTED s -> occurs REDACTED (assign_text s).
Proof.
  intros [pre [rest ->]]. exists (assign_text pre), (assign_text rest).
  now rewrite !assign_text_app.
Qed.

(** A replacement brings in no character that is neither in the text nor
    in the replacement string. *)
Lemma sentinel_at_every_gap_chars (new s : pystr) (c : codepoint) :
  In c (sentinel_at_every_gap new s) -> In c s \/ In c new.
Proof.
  induction s as [|x s IH]; simpl; intros H.
  - now right.
  - apply in_app_or in H as [H|[H|H]]; auto. destruct (IH H); auto.
Qed.

Lemma ReplaceAll_chars (old new s out : pystr) (c : codepoint) :
  ReplaceAll old new s out -> In c out -> In c s \/ In c new.
Proof.
  induction 1 as [s He | s Hne Habs | pre rest out Hne Hl Hr IH]; intros Hc.
  - now apply sentinel_at_every_gap_chars.
  - now left.
  - apply in_app_or in Hc as [Hc|Hc].
    + left. apply in_or_app. now left.
    + apply in_app_or in Hc as [Hc|Hc]; [now right|].
      destruct (IH Hc) as [H|H]; [|now right].
      left. apply in_or_app. right. apply in_or_app. now right.
Qed.

Lemma replace_keeps_plain (s old : pystr) :
  ~ In carriage_return s -> ~ In carriage_return (replace s old REDACTED).
Proof.
  intros Hs Hc.
  destruct (@ReplaceAll_chars _ _ _ _ _ (replace_ReplaceAll s old REDACTED) Hc)
    as [H|H];
    [contradiction|].
  vm_compute in H. repeat (destruct H as [H|H]; [discriminate|]). exact H.
Qed.

Lemma redact_content_keeps_plain (items : list redaction_item) :
  forall c, ~ In carriage_return c ->
            ~ In carriage_return (redact_content c items).
Proof.
  induction items as [|it items IH]; intros c Hc; [exact Hc|].
  cbn [redact_content fold_left]. apply IH. now apply replace_keeps_plain.
Qed.

(** On a paragraph without carriage return, the membership test and the
    assignment of [redact_docx] change nothing. *)
Lemma redact_paragraph_content (items : list redaction_item) :
  forall p, ~ In carriage_return p ->
            redact_paragraph p items = redact_content p items.
Proof.
  induction items as [|it items IH]; intros p Hp; [reflexivity|].
  cbn [redact_paragraph redact_content fold_left].
  destruct (contains (text it) p) eqn:E.
  - pose proof (@replace_keeps_plain p (text it) Hp) as Hr.
    rewrite (@assign_text_plain _ Hr). now apply IH.
  - rewrite replace_absent by exact E. now apply IH.
Qed.

Lemma redact_content_RedactedBy (items : list redaction_item) :
  forall c, RedactedBy c items (redact_content c items).
Proof.
  induction items as [|it items IH]; intros c.
  - apply RedactedBy_nil.
  - apply RedactedBy_cons with (c' := replace c (text it) REDACTED).
    + apply replace_ReplaceAll.
    + apply IH.
Qed.

Lemma RedactedBy_deterministic (items : list redaction_item) :
  forall c c1 c2, RedactedBy c items c1 -> RedactedBy c items c2 -> c1 = c2.
Proof.
  induction items as [|it items IH]; intros c c1 c2 H1 H2.
  - inversion H1; inversion H2; subst. reflexivity.
  - inversion H1 as [|? c' ? ? ? Hr1 Hs1]; subst.
    inversion H2 as [|? c'' ? ? ? Hr2 Hs2]; subst.
    assert (c' = c'') by (eapply ReplaceAll_deterministic; eassumption).
    subst c''. eapply IH; eassumption.
Qed.

Lemma redact_content_absent (items : list redaction_item) (c : pystr) :
  Forall (fun it => ~ occurs (text it) c) items ->
  redact_content c items = c.
Proof.
  induction 1 as [|it items Hit _ IH]; [reflexivity|].
  cbn [redact_content fold_left].
  apply contains_false_iff in Hit. rewrite replace_absent by exact Hit. exact IH.
Qed.

(** A paragraph in which no literal occurs is never assigned to. *)
Lemma redact_paragraph_absent (items : list redaction_item) (p : pystr) :
  Forall (fun it => ~ occurs (text it) p) items ->
  redact_paragraph p items = p.
Proof.
  induction 1 as [|it items Hit _ IH]; [reflexivity|].
  cbn [redact_paragraph fold_left].
  apply contains_false_iff in Hit. rewrite Hit. exact IH.
Qed.

(** One step of each loop on a literal that does not occur. *)
Lemma redact_content_skip (c : pystr) (pre post : list redaction_item)
  (it : redaction_item) :
  ~ occurs (text it) (redact_content c pre) ->
  redact_content c (pre ++ it :: post) = redact_content c (pre ++ post).
Proof.
  intros Habs. rewrite !redact_content_app.
  cbn [redact_content fold_left]. apply contains_false_iff in Habs.
  now rewrite replace_absent by exact Habs.
Qed.

Lemma redact_paragraph_skip (p : pystr) (pre post : list redaction_item)
  (it : redaction_item) :
  ~ occurs (text it) (redact_paragraph p pre) ->
  redact_paragraph p (pre ++ it :: post) = redact_paragraph p (pre ++ post).
Proof.
  intros Habs. rewrite !redact_paragraph_app.
  cbn [redact_paragraph fold_left]. apply contains_false_iff in Habs.
  now rewrite Habs.
Qed.

(** One step of each loop on the empty literal. *)
Lemma redact_content_empty (c : pystr) (pre post : list redaction_item) :
  redact_content c (pre ++ {| text := [] |} :: post) =
  redact_content (sentinel_at_every_gap REDACTED (redact_content c pre)) post.
Proof.
  rewrite redact_content_app. cbn [redact_content fold_left text].
  now rewrite replace_empty.
Qed.

Lemma redact_paragraph_empty (p : pystr) (pre post : list redaction_item) :
  redact_paragraph p (pre ++ {| text := [] |} :: post) =
  redact_paragraph
    (sentinel_at_every_gap REDACTED (assign_text (redact_paragraph p pre))) post.
Proof.
  rewrite redact_paragraph_app. cbn [redact_paragraph fold_left text].
  now rewrite contains_empty, replace_empty, assign_text_gaps.
Qed.

Lemma sentinel_at_every_gap_length (new s : pystr) :
  length (sentinel_at_every_gap new s) =
  length s + (length s + 1) * length new.
Proof.
  induction s as [|c s IH]; simpl.
  - lia.
  - rewrite length_app. simpl. rewrite IH. lia.
Qed.

Lemma sentinel_at_every_gap_longer (s s' : pystr) :
  length s' = length s ->
  sentinel_at_every_gap REDACTED s' <> s.
Proof.
  intros Hl H. apply (f_equal (@length _)) in H.
  rewrite sentinel_at_every_gap_length in H.
  change (length REDACTED) with 10 in H. lia.
Qed.

End RedactFacts.

(* ================================================================= *)
(** * The detector: ordering of the result *)

(** C1. For every text, [detect_pii] returns the matches of all categories
    pooled together (a rearrangement of the pool, nothing added or
    dropped), in ascending order of [start]; matches with the same start
    keep the order in which they were detected, whatever their category. *)
Theorem detect_pii_sorted_by_start_stable
  (db : unicode_db) (PhoneNumberMatcher : pystr -> iteration phone_match)
  (T : pystr) :
  Permutation (detect_pii db PhoneNumberMatcher T)
              (pooled db PhoneNumberMatcher T) /\
  StronglySorted start_le (detect_pii db PhoneNumberMatcher T) /\
  forall z,
    filter (starts_at z) (detect_pii db PhoneNumberMatcher T) =
    filter (starts_at z) (pooled db PhoneNumberMatcher T).
Proof.
  rewrite detect_pii_pooled. split; [|split].
  - apply sorted_perm.
  - apply sorted_ascending.
  - intros z. apply sorted_stable.
Qed.

(* ================================================================= *)
(** * The detector: offsets and matched text *)




(* ================================================================= *)
(** * The detector: overlaps *)




(* ================================================================= *)
(** * The detector: the e-mail pattern *)

(** C3. The e-mail pattern writes its last character set as [[A-Z|a-z]],
    which admits the bar: on the text "a@b.c|d" the detector reports the
    whole text as an e-mail address of high confidence, although what
    follows the last dot is not made of letters. *)
Theorem email_pattern_accepts_bar_in_tld
  (db : unicode_db) (PhoneNumberMatcher : pystr -> iteration phone_match) :
  filter (has_kind email) (detect_pii db PhoneNumberMatcher (str "a@b.c|d")) =
  [ {| pii_type := email; pii_text := str "a@b.c|d";
       pii_start := 0; pii_end := 7; pii_confidence := high |} ].
Proof.
  rewrite detect_pii_regex_kind by discriminate. vm_compute. reflexivity.
Qed.

(* ================================================================= *)
(** * The detector: failure of the phone matcher *)

(** C6, as stated, fails: a matcher that raises after it has yielded a
    match leaves that match in the result. *)
Lemma phone_failure_keeps_earlier_matches :
  raises (matcher_failing sample_text) = true /\
  filter (has_kind phone)
         (detect_pii ascii_only_db matcher_failing sample_text) <> [].
Proof. split; [reflexivity | vm_compute; discriminate]. Qed.

(** C6, amended. If the phone matcher raises during a scan, after it
    has yielded the matches [ms], [detect_pii] still returns its result;
    the phone category contributes exactly the items of [ms], none when
    the matcher fails before its first match; and the items of every
    other category are the same as with any other behaviour of the phone
    matcher. *)
Theorem phone_failure_is_isolated
  (db : unicode_db) (PhoneNumberMatcher : pystr -> iteration phone_match)
  (T : pystr) (ms : list phone_match) :
  PhoneNumberMatcher T = yields_then ms Raise ->
  filter (has_kind phone) (detect_pii db PhoneNumberMatcher T) =
    sorted pii_start (map (phone_item T) ms) /\
  (ms = [] ->
   filter (has_kind phone) (detect_pii db PhoneNumberMatcher T) = []) /\
  (forall other k,
     k <> phone ->
     filter (has_kind k) (detect_pii db PhoneNumberMatcher T) =
     filter (has_kind k) (detect_pii db other T)).
Proof.
  intros Hrun.
  assert (Hphone : filter (has_kind phone) (detect_pii db PhoneNumberMatcher T) =
                   sorted pii_start (map (phone_item T) ms)).
  { rewrite detect_pii_kind. cbn [items_of_kind]. unfold phone_items.
    rewrite Hrun, yielded_yields_then. simpl. now rewrite app_nil_r. }
  split; [exact Hphone|]. split.
  - intros ->. exact Hphone.
  - intros other k Hk. rewrite !detect_pii_kind. now destruct k.
Qed.

Lemma phone_failure_is_isolated_witness :
  matcher_failing sample_text = yields_then [sample_number] Raise /\
  filter (has_kind phone) (detect_pii ascii_only_db matcher_failing sample_text) =
    sorted pii_start (map (phone_item sample_text) [sample_number]) /\
  (forall other k,
     k <> phone ->
     filter (has_kind k) (detect_pii ascii_only_db matcher_failing sample_text) =
     filter (has_kind k) (detect_pii ascii_only_db other sample_text)).
Proof.
  split; [reflexivity|].
  pose proof (@phone_failure_is_isolated ascii_only_db matcher_failing
                sample_text [sample_number] eq_refl) as H.
  split; [exact (proj1 H) | exact (proj2 (proj2 H))].
Defined.

(* ================================================================= *)
(** * The redactor: plain text *)

(** C2. [redact_txt] applies the literals in the order given: each one is
    replaced everywhere (leftmost occurrence first, then on in the rest of
    the text) by [[REDACTED]] in the text the previous literals left, and
    that determines the content written.  So a file holding "aaa",
    redacted with the literal "aa", is written as "[REDACTED]a", and a
    later literal also matches inside a sentinel an earlier one
    produced. *)
Theorem redact_txt_sequential
  (fs : filesystem) (file_path output_path : string) (content : pystr)
  (redaction_items : list redaction_item) :
  fs file_path = Some (TxtFile content) ->
  exists content',
    redact_txt fs file_path redaction_items output_path =
      Some (write_file fs output_path (TxtFile content'), output_path) /\
    RedactedBy content redaction_items content' /\
    (forall c, RedactedBy content redaction_items c -> c = content') /\
    redact_txt sample_fs "in.txt" [item "aa"] "out.txt" =
      Some (write_file sample_fs "out.txt" (TxtFile (str "[REDACTED]a")),
            "out.txt"%string) /\
    redact_content (str "ab") [item "a"; item "REDACTED"] = str "[[REDACTED]]b".
Proof.
  intros Hfs. exists (redact_content content redaction_items).
  unfold redact_txt. rewrite Hfs. split; [reflexivity|].
  split; [apply redact_content_RedactedBy|].
  split; [|split; reflexivity].
  intros c Hc.
  exact (RedactedBy_deterministic Hc (redact_content_RedactedBy _ _)).
Qed.

Lemma redact_txt_sequential_witness :
  sample_fs "in.txt"%string = Some (TxtFile (str "aaa")) /\
  exists content',
    redact_txt sample_fs "in.txt" [item "aa"] "out.txt" =
      Some (write_file sample_fs "out.txt" (TxtFile content'), "out.txt"%string) /\
    RedactedBy (str "aaa") [item "aa"] content' /\
    (forall c, RedactedBy (str "aaa") [item "aa"] c -> c = content') /\
    redact_txt sample_fs "in.txt" [item "aa"] "out.txt" =
      Some (write_file sample_fs "out.txt" (TxtFile (str "[REDACTED]a")),
            "out.txt"%string) /\
    redact_content (str "ab") [item "a"; item "REDACTED"] = str "[[REDACTED]]b".
Proof.
  split; [reflexivity|].
  exact (@redact_txt_sequential sample_fs "in.txt" "out.txt" (str "aaa")
           [item "aa"] eq_refl).
Defined.

(* ================================================================= *)
(** * The redactor: documents *)

(** C5. [redact_docx] writes as many paragraphs as it read, the n-th one
    being the redaction of the n-th one read, and a paragraph in which
    none of the literals occurs is written back unchanged.  Redacting
    "a@b.com" in the paragraphs "Email: a@b.com" and "No PII here" gives
    "Email: [REDACTED]" and "No PII here". *)
Theorem redact_docx_preserves_blocks
  (fs : filesystem) (file_path output_path : string)
  (paragraphs : list pystr) (redaction_items : list redaction_item) :
  fs file_path = Some (DocxFile paragraphs) ->
  exists paragraphs',
    redact_docx fs file_path redaction_items output_path =
      Some (write_file fs output_path (DocxFile paragraphs'), output_path) /\
    length paragraphs' = length paragraphs /\
    (forall n p,
       nth_error paragraphs n = Some p ->
       nth_error paragraphs' n = Some (redact_paragraph p redaction_items)) /\
    (forall n p,
       nth_error paragraphs n = Some p ->
       Forall (fun it => ~ occurs (text it) p) redaction_items ->
       nth_error paragraphs' n = Some p) /\
    redact_docx sample_fs "in.docx" [item "a@b.com"] "out.docx" =
      Some (write_file sample_fs "out.docx"
              (DocxFile [str "Email: [REDACTED]"; str "No PII here"]),
            "out.docx"%string).
Proof.
  intros Hfs.
  exists (map (fun p => redact_paragraph p redaction_items) paragraphs).
  unfold redact_docx at 1. rewrite Hfs.
  split; [reflexivity|]. split; [apply length_map|].
  split; [|split].
  - intros n p Hn. rewrite nth_error_map, Hn. reflexivity.
  - intros n p Hn Habs. rewrite nth_error_map, Hn. simpl. f_equal.
    now apply redact_paragraph_absent.
  - reflexivity.
Qed.

Lemma redact_docx_preserves_blocks_witness :
  sample_fs "in.docx"%string =
    Some (DocxFile [str "Email: a@b.com"; str "No PII here"]) /\
  exists paragraphs',
    redact_docx sample_fs "in.docx" [item "a@b.com"] "out.docx" =
      Some (write_file sample_fs "out.docx" (DocxFile paragraphs'),
            "out.docx"%string) /\
    length paragraphs' = length [str "Email: a@b.com"; str "No PII here"] /\
    (forall n p,
       nth_error [str "Email: a@b.com"; str "No PII here"] n = Some p ->
       nth_error paragraphs' n = Some (redact_paragraph p [item "a@b.com"])) /\
    (forall n p,
       nth_error [str "Email: a@b.com"; str "No PII here"] n = Some p ->
       Forall (fun it => ~ occurs (text it) p) [item "a@b.com"] ->
       nth_error paragraphs' n = Some p) /\
    redact_docx sample_fs "in.docx" [item "a@b.com"] "out.docx" =
      Some (write_file sample_fs "out.docx"
              (DocxFile [str "Email: [REDACTED]"; str "No PII here"]),
            "out.docx"%string).
Proof.
  split; [reflexivity|].
  exact (@redact_docx_preserves_blocks sample_fs "in.docx" "out.docx"
           [str "Email: a@b.com"; str "No PII here"] [item "a@b.com"] eq_refl).
Defined.

(* ================================================================= *)
(** * The redactor: literals that do not occur *)

(** C7. Each variant, on a file it can read: with the empty list of
    literals it writes back the content it read; when none of the
    literals occurs in the content (in any paragraph, for a document) the
    content written equals the content read; and a literal that does not
    occur in the working text when its turn comes changes nothing, so the
    list without it gives the same result. *)
Theorem redact_absent_literals_unchanged :
  (forall (fs : filesystem) (file_path output_path : string)
          (content : pystr) (redaction_items : list redaction_item),
     fs file_path = Some (TxtFile content) ->
     redact_txt fs file_path [] output_path =
       Some (write_file fs output_path (TxtFile content), output_path) /\
     (Forall (fun it => ~ occurs (text it) content) redaction_items ->
      redact_txt fs file_path redaction_items output_path =
        Some (write_file fs output_path (TxtFile content), output_path)) /\
     (forall pre it post,
        ~ occurs (text it) (redact_content content pre) ->
        redact_txt fs file_path (pre ++ it :: post) output_path =
        redact_txt fs file_path (pre ++ post) output_path)) /\
  (forall (fs : filesystem) (file_path output_path : string)
          (paragraphs : list pystr) (redaction_items : list redaction_item),
     fs file_path = Some (DocxFile paragraphs) ->
     redact_docx fs file_path [] output_path =
       Some (write_file fs output_path (DocxFile paragraphs), output_path) /\
     (Forall (fun p => Forall (fun it => ~ occurs (text it) p) redaction_items)
             paragraphs ->
      redact_docx fs file_path redaction_items output_path =
        Some (write_file fs output_path (DocxFile paragraphs), output_path)) /\
     (forall pre it post,
        Forall (fun p => ~ occurs (text it) (redact_paragraph p pre))
               paragraphs ->
        redact_docx fs file_path (pre ++ it :: post) output_path =
        redact_docx fs file_path (pre ++ post) output_path)).
Proof.
  split.
  - intros fs file_path output_path content redaction_items Hfs.
    unfold redact_txt. rewrite Hfs. split; [reflexivity|]. split.
    + intros Habs. now rewrite redact_content_absent.
    + intros pre it post Habs. now rewrite redact_content_skip.
  - intros fs file_path output_path paragraphs redaction_items Hfs.
    unfold redact_docx. rewrite Hfs. split; [|split].
    + simpl. now rewrite map_id.
    + intros Habs.
      assert (Hd : map (fun p => redact_paragraph p redaction_items) paragraphs =
                   paragraphs).
      { rewrite <- (map_id paragraphs) at 2. apply map_ext_in. intros p Hin.
        apply redact_paragraph_absent.
        exact (proj1 (Forall_forall _ _) Habs p Hin). }
      now rewrite Hd.
    + intros pre it post Habs.
      assert (Hd : map (fun p => redact_paragraph p (pre ++ it :: post)) paragraphs =
                   map (fun p => redact_paragraph p (pre ++ post)) paragraphs).
      { apply map_ext_in. intros p Hin. apply redact_paragraph_skip.
        exact (proj1 (Forall_forall _ _) Habs p Hin). }
      now rewrite Hd.
Qed.

Lemma redact_absent_literals_unchanged_witness :
  (sample_fs "in.txt"%string = Some (TxtFile (str "aaa")) /\
   Forall (fun it => ~ occurs (text it) (str "aaa")) [item "555-0100"] /\
   redact_txt sample_fs "in.txt" [item "555-0100"] "out" =
     Some (write_file sample_fs "out" (TxtFile (str "aaa")), "out"%string)) /\
  (sample_fs "in.docx"%string =
     Some (DocxFile [str "Email: a@b.com"; str "No PII here"]) /\
   Forall (fun p => Forall (fun it => ~ occurs (text it) p) [item "555-0100"])
          [str "Email: a@b.com"; str "No PII here"] /\
   redact_docx sample_fs "in.docx" [item "555-0100"] "out" =
     Some (write_file sample_fs "out"
             (DocxFile [str "Email: a@b.com"; str "No PII here"]),
           "out"%string)).
Proof.
  assert (Hc : Forall (fun it => ~ occurs (text it) (str "aaa")) [item "555-0100"]).
  { repeat constructor. now apply contains_false_iff. }
  assert (Hp : Forall (fun p => Forall (fun it => ~ occurs (text it) p)
                                       [item "555-0100"])
                      [str "Email: a@b.com"; str "No PII here"]).
  { repeat constructor; now apply contains_false_iff. }
  split.
  - split; [reflexivity|]. split; [exact Hc|].
    exact (proj1 (proj2
             (proj1 redact_absent_literals_unchanged
                sample_fs "in.txt"%string "out"%string (str "aaa")
                [item "555-0100"] eq_refl)) Hc).
  - split; [reflexivity|]. split; [exact Hp|].
    exact (proj1 (proj2
             (proj2 redact_absent_literals_unchanged
                sample_fs "in.docx"%string "out"%string
                [str "Email: a@b.com"; str "No PII here"]
                [item "555-0100"] eq_refl)) Hp).
Defined.

(* ================================================================= *)
(** * The redactor: the empty literal *)

(** C9. An empty literal is not skipped.  When its turn comes,
    [redact_txt] puts [[REDACTED]] before every character of the working
    text and once more after the last one, and goes on with the rest of
    the list; [redact_docx] does the same in every paragraph, which it
    thereby assigns, so that the carriage returns of the paragraph are
    line feeds from then on.  With the empty literal alone, the content
    written is longer than the content read, and so is every paragraph.
    A file holding "aaa" is written as
    "[REDACTED]a[REDACTED]a[REDACTED]a[REDACTED]". *)
Theorem empty_literal_fills_every_gap :
  (forall (fs : filesystem) (file_path output_path : string)
          (content : pystr) (pre post : list redaction_item),
     fs file_path = Some (TxtFile content) ->
     redact_txt fs file_path (pre ++ {| text := [] |} :: post) output_path =
       Some (write_file fs output_path
               (TxtFile
                  (redact_content
                     (sentinel_at_every_gap REDACTED (redact_content content pre))
                     post)),
             output_path) /\
     redact_txt fs file_path [ {| text := [] |} ] output_path =
       Some (write_file fs output_path
               (TxtFile (sentinel_at_every_gap REDACTED content)),
             output_path) /\
     sentinel_at_every_gap REDACTED content <> content /\
     length (sentinel_at_every_gap REDACTED content) =
       length content + (length content + 1) * length REDACTED) /\
  (forall (fs : filesystem) (file_path output_path : string)
          (paragraphs : list pystr) (pre post : list redaction_item),
     fs file_path = Some (DocxFile paragraphs) ->
     redact_docx fs file_path (pre ++ {| text := [] |} :: post) output_path =
       Some (write_file fs output_path
               (DocxFile
                  (map (fun p =>
                          redact_paragraph
                            (sentinel_at_every_gap REDACTED
                               (assign_text (redact_paragraph p pre)))
                            post)
                       paragraphs)),
             output_path) /\
     redact_docx fs file_path [ {| text := [] |} ] output_path =
       Some (write_file fs output_path
               (DocxFile
                  (map (fun p => sentinel_at_every_gap REDACTED (assign_text p))
                       paragraphs)),
             output_path) /\
     (forall p,
        sentinel_at_every_gap REDACTED (assign_text p) <> p /\
        length (sentinel_at_every_gap REDACTED (assign_text p)) =
          length p + (length p + 1) * length REDACTED /\
        (~ In carriage_return p -> assign_text p = p))) /\
  redact_txt sample_fs "in.txt" [item ""] "out.txt" =
    Some (write_file sample_fs "out.txt"
            (TxtFile (str "[REDACTED]a[REDACTED]a[REDACTED]a[REDACTED]")),
          "out.txt"%string) /\
  redact_paragraph (str "ab") [item ""] =
    str "[REDACTED]a[REDACTED]b[REDACTED]" /\
  redact_paragraph [cp "a"; carriage_return] [item ""] =
    str "[REDACTED]a[REDACTED]" ++ line_feed :: str "[REDACTED]".
Proof.
  split; [|split; [|split; [|split]]]; try reflexivity.
  - intros fs file_path output_path content pre post Hfs.
    unfold redact_txt. rewrite Hfs. split; [|split; [|split]].
    + now rewrite redact_content_empty.
    + cbn [redact_content fold_left text]. now rewrite replace_empty.
    + now apply sentinel_at_every_gap_longer.
    + apply sentinel_at_every_gap_length.
  - intros fs file_path output_path paragraphs pre post Hfs.
    unfold redact_docx. rewrite Hfs. split; [|split].
    + do 4 f_equal. apply map_ext. intros p. apply redact_paragraph_empty.
    + do 4 f_equal. apply map_ext. intros p.
      exact (redact_paragraph_empty p [] []).
    + intros p. split; [|split].
      * apply sentinel_at_every_gap_longer. apply assign_text_length.
      * now rewrite sentinel_at_every_gap_length, assign_text_length.
      * apply assign_text_plain.
Qed.

(* ================================================================= *)
(** * The redactor: the two variants agree *)





(* ================================================================= *)
(** * Further facts about the matcher: what a match consumes *)

Section ConsumeFacts.
Variable db : unicode_db.
Variable fl : flags.
Variable T : pystr.

Lemma firstn_one_skipn (A : Type) (l : list A) (n : nat) (x : A) :
  nth_error l n = Some x -> firstn 1 (skipn n l) = [x].
Proof.
  revert n; induction l as [|y l IH]; intros [|n] H; simpl in *;
    try discriminate.
  - now injection H as ->.
  - now apply IH.
Qed.

Lemma firstn_add_skipn (A : Type) (l : list A) (n a b : nat) :
  firstn (a + b) (skipn n l) =
  firstn a (skipn n l) ++ firstn b (skipn (n + a) l).
Proof.
  rewrite Nat.add_comm with (n := n), <- skipn_skipn.
  generalize (skipn n l) as s. clear n l.
  induction a as [|a IH]; intros s; [reflexivity|].
  destruct s as [|x s]; simpl.
  - now rewrite !firstn_nil.
  - now rewrite IH.
Qed.

Lemma count_run_limit (r : regex) (s : pystr) (h : nat) :
  count_run db fl r (Some h) s <= h.
Proof.
  revert h; induction s as [|c s IH]; intros h; simpl; [lia|].
  destruct h as [|h]; [lia|].
  destruct (char_match db fl r c); [|lia].
  simpl. apply le_n_S, IH.
Qed.

Lemma count_run_accepts (r : regex) (s : pystr) (limit : option nat) :
  forall i, i <= count_run db fl r limit s ->
  Forall (fun c => char_match db fl r c = true) (firstn i s).
Proof.
  revert limit; induction s as [|c s IH]; intros limit i Hi.
  - rewrite firstn_nil. constructor.
  - destruct i as [|i]; [constructor|]. simpl in Hi.
    destruct limit as [[|h]|]; try lia;
      (destruct (char_match db fl r c) eqn:E; [|lia]);
      simpl; (constructor; [exact E|]); apply le_S_n in Hi; eapply IH; exact Hi.
Qed.

Lemma backoff_range (k : nat -> option nat) (pos lo n e : nat) :
  backoff k pos lo n = Some e ->
  exists i, lo <= i /\ i <= n /\ k (pos + i) = Some e.
Proof.
  induction n as [|n IH]; simpl.
  - destruct (0 <? lo) eqn:El; [discriminate|]. apply Nat.ltb_ge in El.
    destruct (k (pos + 0)) eqn:E; [|discriminate].
    intros H; injection H as <-. exists 0. repeat split; [lia | lia | exact E].
  - destruct (S n <? lo) eqn:El; [discriminate|]. apply Nat.ltb_ge in El.
    destruct (k (pos + S n)) eqn:E.
    + intros H; injection H as <-. exists (S n). repeat split; [lia | lia | exact E].
    + intros H. destruct (IH H) as [i [H1 [H2 H3]]].
      exists i. repeat split; [lia | lia | exact H3].
Qed.

Lemma repeat_until_consumes
  (body : nat -> (nat -> option nat) -> option nat) (k : nat -> option nat)
  (mn : nat) (mx : option nat) (ok : codepoint -> bool) :
  (forall pos k0 e, pos <= length T -> body pos k0 = Some e ->
     consumes T mn mx ok pos k0 e 1 1) ->
  forall budget need last pos e, pos <= length T ->
  repeat_until body k budget need last pos = Some e ->
  consumes T mn mx ok pos k e need budget.
Proof.
  intros Hbody.
  assert (Hzero : forall pos e rounds, pos <= length T -> k pos = Some e ->
                  consumes T mn mx ok pos k e 0 rounds).
  { intros pos e rounds Hpos H. exists 0. rewrite Nat.add_0_r.
    repeat split; [lia | intros; lia | lia | constructor | exact H]. }
  assert (Hstep : forall pos e need budget,
            pos <= length T ->
            (forall p e0, p <= length T ->
               repeat_until body k budget need (Some pos) p = Some e0 \/
               (exists last, repeat_until body k budget need last p = Some e0) ->
               consumes T mn mx ok p k e0 need budget) ->
            forall last,
            body pos (fun p => repeat_until body k budget need last p) = Some e ->
            consumes T mn mx ok pos k e (S need) (S budget)).
  { intros pos e need budget Hpos IH last H.
    apply Hbody in H; [|exact Hpos].
    destruct H as [w1 [A1 [A2 [A3 [A4 A5]]]]].
    assert (Hrec : consumes T mn mx ok (pos + w1) k e need budget).
    { apply IH; [exact A3|]. right. now exists last. }
    destruct Hrec as [w2 [B1 [B2 [B3 [B4 B5]]]]].
    exists (w1 + w2). repeat split.
    - simpl. lia.
    - intros m Hm. specialize (A2 m Hm). specialize (B2 m Hm). simpl. lia.
    - lia.
    - rewrite firstn_add_skipn. apply Forall_app. now split.
    - now rewrite Nat.add_assoc. }
  induction budget as [|budget IHb]; intros need last pos e Hpos H.
  - destruct need; simpl in H; [|discriminate]. now apply Hzero.
  - assert (IH : forall need' p e0, p <= length T ->
              repeat_until body k budget need' (Some pos) p = Some e0 \/
              (exists last0, repeat_until body k budget need' last0 p = Some e0) ->
              consumes T mn mx ok p k e0 need' budget).
    { intros need' p e0 Hp [H0|[last0 H0]]; eapply IHb; eassumption. }
    destruct need as [|need]; simpl in H.
    + destruct (last_is last pos); [now apply Hzero|].
      match type of H with
      | match ?m with _ => _ end = _ => destruct m eqn:E
      end.
      * injection H as <-.
        destruct (Hstep pos n 0 budget Hpos (IH 0) (Some pos) E)
          as [w [A1 [A2 [A3 [A4 A5]]]]].
        exists w. repeat split; try assumption. lia.
      * now apply Hzero.
    + exact (Hstep pos e need budget Hpos (IH need) last H).
Qed.

(** A successful match of [r] at [pos] consumes a number of characters
    within the bounds of [r], all of them inside the text and accepted by
    an item of [r], and hands the position after them to the rest of the
    pattern. *)
Lemma match_at_consumes (r : regex) :
  forall pos k e, pos <= length T ->
  match_at db fl T r pos k = Some e ->
  exists w,
    width_ok r w /\
    pos + w <= length T /\
    Forall (fun c => admits db fl r c = true) (firstn w (skipn pos T)) /\
    k (pos + w) = Some e.
Proof.
  assert (Hnone : forall r0 pos (k : nat -> option nat) e,
    min_width r0 = 0 -> pos <= length T -> k pos = Some e ->
    exists w, width_ok r0 w /\ pos + w <= length T /\
      Forall (fun c => admits db fl r0 c = true) (firstn w (skipn pos T)) /\
      k (pos + w) = Some e).
  { intros r0 pos k e Hmin Hpos H. exists 0. rewrite Nat.add_0_r.
    split; [split; [lia | intros; lia]|].
    split; [lia|]. split; [constructor | exact H]. }
  assert (Hchar : forall r0 pos (k : nat -> option nat) e,
    min_width r0 = 1 -> max_width r0 = Some 1 ->
    (forall c, admits db fl r0 c = char_match db fl r0 c) ->
    match nth_error T pos with
    | Some c => if char_match db fl r0 c then k (S pos) else None
    | None => None
    end = Some e ->
    exists w, width_ok r0 w /\ pos + w <= length T /\
      Forall (fun c => admits db fl r0 c = true) (firstn w (skipn pos T)) /\
      k (pos + w) = Some e).
  { intros r0 pos k e Hmin Hmax Had H.
    destruct (nth_error T pos) as [c|] eqn:E; [|discriminate].
    destruct (char_match db fl r0 c) eqn:Ec; [|discriminate].
    assert (pos < length T) by (apply nth_error_Some; congruence).
    exists 1. rewrite Nat.add_1_r.
    split; [|split; [lia|split; [|exact H]]].
    - unfold width_ok. rewrite Hmin, Hmax. split; [lia|].
      intros m Hm. injection Hm as <-. lia.
    - rewrite (firstn_one_skipn _ _ E). constructor; [|constructor].
      now rewrite Had. }
  induction r as [| |c| | |items| |r1 IH1 r2 IH2|r1 IH1 r2 IH2|r1 IH1
                  |r1 IH1 lo hi|r1 IH1 lo hi];
    intros pos k e Hpos H; cbn [match_at] in H.
  - now apply Hnone.
  - discriminate.
  - now apply Hchar.
  - now apply Hchar.
  - now apply Hchar.
  - now apply Hchar.
  - destruct (at_boundary db T pos); [|discriminate]. now apply Hnone.
  - apply IH1 in H; [|exact Hpos].
    destruct H as [w1 [[A1 A2] [A3 [A4 H]]]].
    apply IH2 in H; [|exact A3].
    destruct H as [w2 [[B1 B2] [B3 [B4 H]]]].
    exists (w1 + w2).
    split; [split|split; [lia|split]].
    + simpl. lia.
    + intros m Hm. simpl in Hm.
      destruct (max_width r1) as [a|]; [|discriminate].
      destruct (max_width r2) as [b|]; [|discriminate].
      injection Hm as <-. specialize (A2 a eq_refl). specialize (B2 b eq_refl). lia.
    + rewrite firstn_add_skipn. apply Forall_app. split.
      * eapply Forall_impl; [|exact A4]. simpl. intros c Hc. now rewrite Hc.
      * eapply Forall_impl; [|exact B4]. simpl. intros c Hc.
        rewrite Hc. apply orb_true_r.
    + now rewrite Nat.add_assoc.
  - assert (Hside : forall r0 w,
      (r0 = r1 \/ r0 = r2) -> width_ok r0 w ->
      Forall (fun c => admits db fl r0 c = true) (firstn w (skipn pos T)) ->
      width_ok (Alt r1 r2) w /\
      Forall (fun c => admits db fl (Alt r1 r2) c = true)
             (firstn w (skipn pos T))).
    { intros r0 w Hr [A1 A2] A4. split.
      - split.
        + simpl. destruct Hr; subst; lia.
        + intros m Hm. simpl in Hm.
          destruct (max_width r1) as [a|] eqn:Ea; [|discriminate].
          destruct (max_width r2) as [b|] eqn:Eb; [|discriminate].
          injection Hm as <-.
          destruct Hr; subst; [specialize (A2 a Ea) | specialize (A2 b Eb)];
            lia.
      - eapply Forall_impl; [|exact A4]. simpl. intros c Hc.
        destruct Hr; subst; rewrite Hc; [reflexivity | apply orb_true_r]. }
    destruct (match_at db fl T r1 pos k) eqn:E.
    + injection H as <-. apply IH1 in E; [|exact Hpos].
      destruct E as [w [A1 [A3 [A4 E]]]].
      destruct (Hside r1 w (or_introl eq_refl) A1 A4) as [C1 C2].
      exists w. split; [exact C1|]. split; [exact A3|]. split; [exact C2|exact E].
    + apply IH2 in H; [|exact Hpos].
      destruct H as [w [A1 [A3 [A4 H]]]].
      destruct (Hside r2 w (or_intror eq_refl) A1 A4) as [C1 C2].
      exists w. split; [exact C1|]. split; [exact A3|]. split; [exact C2|exact H].
  - apply IH1 in H; [|exact Hpos].
    destruct H as [w [A1 [A3 [A4 H]]]].
    exists w. split; [exact A1|]. split; [exact A3|]. split; [exact A4|exact H].
  - apply backoff_range in H as [i [Hlo [Hi H]]].
    pose proof (count_run_le db fl r1 (skipn pos T) hi) as Hc.
    rewrite length_skipn in Hc.
    exists i. split; [split|split; [lia|split; [|exact H]]].
    + simpl. exact Hlo.
    + intros m Hm. simpl in Hm. subst hi.
      pose proof (count_run_limit r1 (skipn pos T) m). lia.
    + simpl. eapply count_run_accepts. exact Hi.
  - assert (Hbody : forall p k0 e0, p <= length T ->
              match_at db fl T r1 p k0 = Some e0 ->
              consumes T (min_width r1) (max_width r1)
                       (admits db fl r1) p k0 e0 1 1).
    { intros p k0 e0 Hp H0. apply IH1 in H0; [|exact Hp].
      destruct H0 as [w [[A1 A2] [A3 [A4 H0]]]].
      exists w. split; [lia|]. split.
      - intros m Hm. specialize (A2 m Hm). lia.
      - split; [exact A3|]. split; [exact A4|exact H0]. }
    eapply repeat_until_consumes in H; [|exact Hbody|exact Hpos].
    destruct H as [w [A1 [A2 [A3 [A4 A5]]]]].
    exists w. split; [split|split; [exact A3|split; [exact A4|exact A5]]].
    + simpl. exact A1.
    + intros m Hm. simpl in Hm.
      destruct (max_width r1) as [a|]; [|discriminate].
      injection Hm as <-. exact (A2 a eq_refl).
Qed.

(** A match of a pattern that begins with [\b] starts at a boundary. *)
Lemma match_at_starts_with_boundary (r : regex) :
  forall pos k e,
  starts_with_boundary r = true ->
  match_at db fl T r pos k = Some e ->
  at_boundary db T pos = true.
Proof.
  induction r; intros pos k e Hs H; simpl in Hs; try discriminate;
    cbn [match_at] in H.
  - destruct (at_boundary db T pos); [reflexivity | discriminate].
  - eapply IHr1; eassumption.
  - eapply IHr; eassumption.
Qed.

(** A match of a pattern that ends with [\b] hands a boundary to the rest
    of the pattern. *)
Lemma match_at_ends_with_boundary (r : regex) :
  forall pos k e,
  ends_with_boundary r = true -> pos <= length T ->
  match_at db fl T r pos k = Some e ->
  exists p, at_boundary db T p = true /\ k p = Some e.
Proof.
  induction r; intros pos k e Hs Hpos H; simpl in Hs; try discriminate;
    cbn [match_at] in H.
  - destruct (at_boundary db T pos) eqn:E; [|discriminate]. now exists pos.
  - apply match_at_consumes in H; [|exact Hpos].
    destruct H as [w [_ [Hw [_ H]]]].
    eapply IHr2; eassumption.
  - eapply IHr; eassumption.
Qed.

(** Every match of a scan is a match of the pattern from its start. *)
Lemma search_from_match (r : regex) (n : nat) :
  forall adv pos s e,
  search_from db fl T r adv pos n = Some (s, e) ->
  pos <= s /\ s <= pos + n /\
  exists adv', match_from db fl T r adv' s = Some e.
Proof.
  induction n as [|n IH]; intros adv pos s e H; simpl in H;
    destruct (match_from db fl T r adv pos) as [e'|] eqn:E.
  - injection H as <- <-. repeat split; try lia. now exists adv.
  - discriminate.
  - injection H as <- <-. repeat split; try lia. now exists adv.
  - apply IH in H. destruct H as [H1 [H2 H3]]. repeat split; try lia. exact H3.
Qed.

Lemma finditer_matches (r : regex) :
  Forall (fun m => fst m <= length T /\
                   exists adv, match_from db fl T r adv (fst m) = Some (snd m))
         (finditer db fl T r).
Proof.
  unfold finditer. generalize (2 * length T + 2) as fuel.
  generalize 0 as pos. generalize false as adv.
  intros adv pos fuel. revert pos adv.
  induction fuel as [|fuel IH]; intros pos adv; simpl; [constructor|].
  destruct (search db fl T r adv pos) as [[s e]|] eqn:E; [|constructor].
  constructor; [|apply IH].
  unfold search in E. destruct (length T <? pos) eqn:El; [discriminate|].
  apply Nat.ltb_ge in El. apply search_from_match in E.
  destruct E as [H1 [H2 H3]]. simpl. split; [lia | exact H3].
Qed.

(** What every match of a scan satisfies: its width is within the bounds
    of the pattern, its characters are accepted by items of the pattern,
    and a pattern that begins and ends with [\b] puts both ends of the
    match at a boundary. *)
Lemma finditer_consumes (r : regex) :
  Forall (fun m =>
            fst m <= snd m /\ snd m <= length T /\
            width_ok r (snd m - fst m) /\
            Forall (fun c => admits db fl r c = true)
                   (substring T (fst m) (snd m)) /\
            (starts_with_boundary r = true -> at_boundary db T (fst m) = true) /\
            (ends_with_boundary r = true -> at_boundary db T (snd m) = true))
         (finditer db fl T r).
Proof.
  eapply Forall_impl; [|apply finditer_matches].
  intros [s e]. simpl. intros [Hs [adv H]]. unfold match_from in H.
  pose proof H as H0.
  apply match_at_consumes in H; [|exact Hs].
  destruct H as [w [A1 [A3 [A4 H]]]].
  destruct (adv && (s + w =? s)); [discriminate|]. injection H as <-.
  replace (s + w - s) with w by lia.
  repeat split; try lia; try apply A1.
  - unfold substring. now replace (s + w - s) with w by lia.
  - intros Hb. eapply match_at_starts_with_boundary; eassumption.
  - intros Hb. apply (match_at_ends_with_boundary _ _ Hb Hs) in H0.
    destruct H0 as [p [Hp H0]].
    destruct (adv && (p =? s)); [discriminate|]. now injection H0 as <-.
Qed.

End ConsumeFacts.

(* ================================================================= *)
(** * Further facts about [detect_pii]: the items of the regex categories *)

Section RegexItemFacts.
Variable db : unicode_db.
Variable PhoneNumberMatcher : pystr -> iteration phone_match.
Variable T : pystr.

Lemma items_of_kind_pattern (k : pii_kind) (p : pattern) :
  pattern_of k = Some p ->
  items_of_kind db PhoneNumberMatcher T k =
  pattern_items db p k (confidence_of k) T.
Proof. destruct k; simpl; intros H; try discriminate; now injection H as <-. Qed.

(** An item of a regex category comes from a match of that category's
    scan. *)
Lemma regex_item_match (i : pii_item) (p : pattern) :
  In i (detect_pii db PhoneNumberMatcher T) ->
  pattern_of (pii_type i) = Some p ->
  exists m,
    In m (pattern_finditer db p T) /\
    pii_start i = Z.of_nat (fst m) /\
    pii_end i = Z.of_nat (snd m) /\
    pii_text i = slice T (Z.of_nat (fst m)) (Z.of_nat (snd m)).
Proof.
  intros Hin Hp. apply detect_pii_In in Hin.
  rewrite (items_of_kind_pattern _ Hp) in Hin.
  unfold pattern_items in Hin. apply in_map_iff in Hin.
  destruct Hin as [m [<- Hm]]. exists m. now repeat split.
Qed.

(** What holds of every item of a regex category. *)
Lemma regex_item_consumes (i : pii_item) (p : pattern) :
  In i (detect_pii db PhoneNumberMatcher T) ->
  pattern_of (pii_type i) = Some p ->
  (0 <= pii_start i <= pii_end i)%Z /\
  (pii_end i <= Z.of_nat (length T))%Z /\
  length (pii_text i) = Z.to_nat (pii_end i - pii_start i) /\
  width_ok (pat_regex p) (length (pii_text i)) /\
  Forall (fun c => admits db (pat_flags p) (pat_regex p) c = true) (pii_text i) /\
  (starts_with_boundary (pat_regex p) = true ->
   at_boundary db T (Z.to_nat (pii_start i)) = true) /\
  (ends_with_boundary (pat_regex p) = true ->
   at_boundary db T (Z.to_nat (pii_end i)) = true).
Proof.
  intros Hin Hp.
  destruct (regex_item_match i Hin Hp) as [[s e] [Hm [Hs [He Ht]]]].
  simpl in Hs, He, Ht.
  pose proof (proj1 (Forall_forall _ _)
                (finditer_consumes db (pat_flags p) T (pat_regex p)) (s, e) Hm)
    as [H1 [H2 [H3 [H4 [H5 H6]]]]].
  simpl in H1, H2, H3, H4, H5, H6.
  assert (Htext : pii_text i = substring T s e).
  { rewrite Ht, slice_in_text by lia. now rewrite !Nat2Z.id. }
  assert (Hlen : length (pii_text i) = e - s).
  { rewrite Htext. unfold substring. rewrite length_firstn, length_skipn. lia. }
  rewrite Hs, He, !Nat2Z.id.
  split; [lia|]. split; [lia|]. split; [rewrite Hlen; lia|].
  split; [now rewrite Hlen|]. split; [now rewrite Htext|]. now split.
Qed.

End RegexItemFacts.

(* ================================================================= *)
(** * The detector: length and position of the regex items *)

(** X1. The text of an item is as long as its offsets are apart, and for
    the regex categories that length is bounded by the pattern: at least
    6 characters for an e-mail address, 9 to 11 for an SSN, 16 to 19 for
    a card number, 6 to 10 for a date, 15 to 31 for an IBAN and at least
    5 for an address. *)
Theorem detect_pii_item_lengths
  (db : unicode_db) (PhoneNumberMatcher : pystr -> iteration phone_match)
  (T : pystr) (i : pii_item) :
  In i (detect_pii db PhoneNumberMatcher T) ->
  pii_type i <> phone ->
  Z.of_nat (length (pii_text i)) = (pii_end i - pii_start i)%Z /\
  match pii_type i with
  | email => 6 <= length (pii_text i)
  | ssn => 9 <= length (pii_text i) <= 11
  | credit_card => 16 <= length (pii_text i) <= 19
  | date => 6 <= length (pii_text i) <= 10
  | iban => 15 <= length (pii_text i) <= 31
  | address => 5 <= length (pii_text i)
  | phone => True
  end.
Proof.
  intros Hin Hk.
  assert (H : exists p, pattern_of (pii_type i) = Some p)
    by (destruct (pii_type i); try contradiction; eexists; reflexivity).
  destruct H as [p Hp].
  destruct (regex_item_consumes db PhoneNumberMatcher T i Hin Hp)
    as [H1 [H2 [H3 [[Hmin Hmax] _]]]].
  split; [rewrite H3; lia|].
  destruct (pii_type i); try contradiction; injection Hp as <-;
    try (split; [exact Hmin | exact (Hmax _ eq_refl)]); exact Hmin.
Qed.

Lemma detect_pii_item_lengths_witness :
  In {| pii_type := ssn; pii_text := str "123-45-6789";
        pii_start := 0; pii_end := 11; pii_confidence := high |}
     (detect_pii ascii_only_db matcher_none two_numbers_text) /\
  9 <= length (str "123-45-6789") <= 11.
Proof.
  assert (Hin : In {| pii_type := ssn; pii_text := str "123-45-6789";
                      pii_start := 0; pii_end := 11; pii_confidence := high |}
                   (detect_pii ascii_only_db matcher_none two_numbers_text)).
  { vm_compute. left. reflexivity. }
  split; [exact Hin|].
  refine (proj2 (@detect_pii_item_lengths ascii_only_db matcher_none
                   two_numbers_text _ Hin _)).
  discriminate.
Defined.

(** X2. Every item of a regex category starts and ends at a word
    boundary of the scanned text: at each end, exactly one of the two
    neighbouring characters is a word character (the outside of the text
    counting as none). *)
Theorem detect_pii_items_at_word_boundaries
  (db : unicode_db) (PhoneNumberMatcher : pystr -> iteration phone_match)
  (T : pystr) (i : pii_item) :
  In i (detect_pii db PhoneNumberMatcher T) ->
  pii_type i <> phone ->
  at_boundary db T (Z.to_nat (pii_start i)) = true /\
  at_boundary db T (Z.to_nat (pii_end i)) = true.
Proof.
  intros Hin Hk.
  assert (H : exists p, pattern_of (pii_type i) = Some p /\
                        starts_with_boundary (pat_regex p) = true /\
                        ends_with_boundary (pat_regex p) = true)
    by (destruct (pii_type i); try contradiction; eexists;
        repeat split; reflexivity).
  destruct H as [p [Hp [Hs He]]].
  destruct (regex_item_consumes db PhoneNumberMatcher T i Hin Hp)
    as [_ [_ [_ [_ [_ [H5 H6]]]]]].
  split; [now apply H5 | now apply H6].
Qed.

Lemma detect_pii_items_at_word_boundaries_witness :
  In {| pii_type := ssn; pii_text := str "987654321";
        pii_start := 17; pii_end := 26; pii_confidence := high |}
     (detect_pii ascii_only_db matcher_none two_numbers_text) /\
  at_boundary ascii_only_db two_numbers_text (Z.to_nat 17) = true /\
  at_boundary ascii_only_db two_numbers_text (Z.to_nat 26) = true.
Proof.
  assert (Hin : In {| pii_type := ssn; pii_text := str "987654321";
                      pii_start := 17; pii_end := 26; pii_confidence := high |}
                   (detect_pii ascii_only_db matcher_none two_numbers_text)).
  { vm_compute. right. left. reflexivity. }
  split; [exact Hin|].
  refine (@detect_pii_items_at_word_boundaries ascii_only_db matcher_none
            two_numbers_text _ Hin _).
  discriminate.
Defined.
(** X3. The confidence of an item is fixed by its category: high for
    e-mail, phone, SSN and IBAN items, medium for card and address items,
    low for date items. *)
Theorem detect_pii_confidence_by_category
  (db : unicode_db) (PhoneNumberMatcher : pystr -> iteration phone_match)
  (T : pystr) (i : pii_item) :
  In i (detect_pii db PhoneNumberMatcher T) ->
  pii_confidence i =
  match pii_type i with
  | email | phone | ssn | iban => high
  | credit_card | address => medium
  | date => low
  end.
Proof.
  intros Hin. apply detect_pii_In in Hin.
  destruct (pii_type i) eqn:Ek; simpl in Hin;
    try (apply (proj1 (Forall_forall _ _) (pattern_items_tag db _ _ _ T)) in Hin;
         exact (proj2 Hin)).
  apply (proj1 (Forall_forall _ _) (phone_items_text _ T)) in Hin.
  exact (proj1 (proj2 Hin)).
Qed.

Lemma detect_pii_confidence_by_category_witness :
  In {| pii_type := date; pii_text := str "12/31/2023";
        pii_start := 4; pii_end := 14; pii_confidence := low |}
     (detect_pii ascii_only_db matcher_none (str "due 12/31/2023")) /\
  pii_confidence
    {| pii_type := date; pii_text := str "12/31/2023";
       pii_start := 4; pii_end := 14; pii_confidence := low |} = low.
Proof.
  assert (Hin : In {| pii_type := date; pii_text := str "12/31/2023";
                      pii_start := 4; pii_end := 14; pii_confidence := low |}
                   (detect_pii ascii_only_db matcher_none (str "due 12/31/2023"))).
  { vm_compute. left. reflexivity. }
  split; [exact Hin|].
  exact (@detect_pii_confidence_by_category ascii_only_db matcher_none
           (str "due 12/31/2023") _ Hin).
Defined.

(** X4. On a text of fewer than five characters, the empty text
    included, no regex category finds anything: the result consists of
    the phone matcher's items alone, and is empty when the phone matcher
    yields nothing. *)
Theorem detect_pii_short_text
  (db : unicode_db) (PhoneNumberMatcher : pystr -> iteration phone_match)
  (T : pystr) :
  length T < 5 ->
  detect_pii db PhoneNumberMatcher T =
    sorted pii_start (phone_items (PhoneNumberMatcher T) T) /\
  (yielded (PhoneNumberMatcher T) = [] ->
   detect_pii db PhoneNumberMatcher T = []).
Proof.
  intros Hlen.
  assert (Hnone : forall p k conf,
            5 <= min_width (pat_regex p) -> pattern_items db p k conf T = []).
  { intros p k conf Hmin. unfold pattern_items, pattern_finditer.
    pose proof (finditer_consumes db (pat_flags p) T (pat_regex p)) as H.
    destruct (finditer db (pat_flags p) T (pat_regex p)) as [|[s e] l];
      [reflexivity|].
    inversion H as [|? ? [H1 [H2 [[H3 _] _]]] _]; subst. simpl in *. lia. }
  assert (Heq : detect_pii db PhoneNumberMatcher T =
                sorted pii_start (phone_items (PhoneNumberMatcher T) T)).
  { rewrite detect_pii_pooled. unfold pooled.
    rewrite !Hnone by (vm_compute; lia). simpl. now rewrite app_nil_r. }
  split; [exact Heq|].
  intros Hy. rewrite Heq. unfold phone_items. now rewrite Hy.
Qed.

Lemma detect_pii_short_text_witness :
  length (str "a@b") < 5 /\
  detect_pii ascii_only_db matcher_none (str "a@b") = [].
Proof.
  assert (Hlen : length (str "a@b") < 5) by (vm_compute; lia).
  split; [exact Hlen|].
  exact (proj2 (@detect_pii_short_text ascii_only_db matcher_none (str "a@b") Hlen)
               eq_refl).
Defined.

(* ================================================================= *)
(** * Further facts about the redactor: what is gone after redaction *)

Section RemovalFacts.

Lemma plain_literalb_true (l : pystr) :
  plain_literalb l = true -> plain_literal l.
Proof.
  unfold plain_literalb, plain_literal, no_common_char.
  intros H. apply andb_true_iff in H as [H1 H2]. split.
  - intros ->. discriminate.
  - intros c Hc Hin. rewrite forallb_forall in H2. specialize (H2 c Hc).
    apply negb_true_iff in H2. unfold mem in H2.
    assert (Ht : existsb (N.eqb c) REDACTED = true).
    { apply existsb_exists. exists c. split; [exact Hin | apply N.eqb_refl]. }
    congruence.
Qed.

Lemma occurs_app_l (l a b : pystr) : occurs l a -> occurs l (a ++ b).
Proof.
  intros [x [y ->]]. exists x, (y ++ b). now rewrite <- !app_assoc.
Qed.

Lemma occurs_app_r (l a b : pystr) : occurs l b -> occurs l (a ++ b).
Proof.
  intros [x [y ->]]. exists (a ++ x), y. now rewrite <- !app_assoc.
Qed.

(** An occurrence of [l] in [p ++ new ++ q] that shares no character with
    the non-empty [new] lies in [p] or in [q]. *)
Lemma occurrence_beside (l new p q x y : pystr) :
  l <> [] -> new <> [] -> no_common_char l new ->
  x ++ l ++ y = p ++ new ++ q ->
  (exists b, p = x ++ l ++ b) \/ (exists a, q = a ++ l ++ y).
Proof.
  intros Hl Hn Hd H.
  apply app_eq_app in H as [m [[H1 H2]|[H1 H2]]].
  - apply app_eq_app in H2 as [m2 [[H3 H4]|[H3 H4]]].
    + destruct m2 as [|c m2].
      * right. exists []. simpl in *. now symmetry.
      * exfalso. destruct l as [|c' l']; [contradiction|].
        simpl in H4. injection H4 as -> _.
        apply (Hd c); [now left|]. rewrite H3. apply in_or_app. right. now left.
    + right. exists m2. exact H4.
  - apply app_eq_app in H2 as [m2 [[H3 H4]|[H3 H4]]].
    + destruct m2 as [|c m2].
      * left. exists []. rewrite app_nil_r in H3. rewrite app_nil_r.
        now rewrite H1, H3.
      * exfalso. destruct new as [|c' new']; [contradiction|].
        simpl in H4. injection H4 as -> _.
        apply (Hd c); [|now left]. rewrite H3. apply in_or_app. right. now left.
    + left. exists m2. now rewrite H1, H3.
Qed.

Lemma occurs_gaps (l new s : pystr) :
  l <> [] -> new <> [] -> no_common_char l new ->
  occurs l (sentinel_at_every_gap new s) -> occurs l s.
Proof.
  intros Hl Hn Hd. induction s as [|c s IH]; intros [x [y H]].
  - simpl in H. exfalso.
    destruct l as [|c' l']; [contradiction|].
    apply (Hd c'); [now left|]. rewrite H. apply in_or_app. right. now left.
  - simpl in H.
    assert (H' : x ++ l ++ y = [] ++ new ++ c :: sentinel_at_every_gap new s)
      by (symmetry; exact H).
    destruct (@occurrence_beside l new _ _ _ _ Hl Hn Hd H') as [[b Hb]|[a Ha]].
    + exfalso. destruct x; [destruct l; [contradiction|]|]; discriminate.
    + destruct a as [|c' a]; simpl in Ha.
      * destruct l as [|c' l']; [contradiction|]. simpl in Ha.
        injection Ha as <- Ha. destruct l' as [|c2 l'].
        -- exists [], s. reflexivity.
        -- exfalso. apply (Hd c2); [right; now left|].
           destruct s; simpl in Ha.
           ++ rewrite Ha. now left.
           ++ destruct new as [|n0 new']; [contradiction|].
              simpl in Ha. injection Ha as -> _. now left.
      * injection Ha as <- Ha.
        apply (occurs_app_r [c]). apply IH. now exists a, y.
Qed.

(** Replacing any [old] by [new] brings no occurrence of [l] into a text
    that had none, when [l] shares no character with [new]. *)
Lemma ReplaceAll_keeps_absent (l old new s out : pystr) :
  l <> [] -> new <> [] -> no_common_char l new ->
  ReplaceAll old new s out ->
  ~ occurs l s -> ~ occurs l out.
Proof.
  intros Hl Hn Hd H.
  induction H as [s He | s Hne Habs | pre rest out Hne Hlm Hr IH]; intros Hs Ho.
  - apply Hs. now apply (@occurs_gaps l new s Hl Hn Hd).
  - now apply Hs.
  - destruct Ho as [x [y Ho]]. symmetry in Ho.
    destruct (@occurrence_beside l new _ _ _ _ Hl Hn Hd Ho) as [[b Hb]|[a Ha]].
    + apply Hs. apply occurs_app_l. now exists x, b.
    + apply IH.
      * intros Hrest. apply Hs. now apply occurs_app_r, occurs_app_r.
      * now exists a, y.
Qed.

(** Replacing [old] by [new] leaves no occurrence of [old], when [old] is
    not empty and shares no character with [new]. *)
Lemma ReplaceAll_removes (old new s out : pystr) :
  new <> [] -> no_common_char old new ->
  ReplaceAll old new s out ->
  old <> [] -> ~ occurs old out.
Proof.
  intros Hn Hd H.
  induction H as [s He | s Hne Habs | pre rest out Hne Hlm Hr IH]; intros Hl Ho.
  - contradiction.
  - destruct Ho as [x [y Ho]]. now apply (Habs x y).
  - destruct Ho as [x [y Ho]]. symmetry in Ho.
    destruct (@occurrence_beside old new _ _ _ _ Hl Hn Hd Ho) as [[b Hb]|[a Ha]].
    + assert (Heq : pre ++ old ++ rest = x ++ old ++ (b ++ old ++ rest)).
      { rewrite Hb. now rewrite <- !app_assoc. }
      apply Hlm in Heq. rewrite Hb, !length_app in Heq.
      destruct old; [contradiction|]. simpl in Heq. lia.
    + apply IH; [exact Hl|]. now exists a, y.
Qed.

Lemma REDACTED_not_empty : REDACTED <> [].
Proof. discriminate. Qed.

Lemma redact_content_keeps_absent (items : list redaction_item) :
  forall c l, plain_literal l -> ~ occurs l c ->
  ~ occurs l (redact_content c items).
Proof.
  induction items as [|it items IH]; intros c l Hp Hc; [exact Hc|].
  cbn [redact_content fold_left]. apply IH; [exact Hp|].
  destruct Hp as [Hl Hd].
  exact (@ReplaceAll_keeps_absent l (text it) REDACTED c _ Hl
           REDACTED_not_empty Hd (replace_ReplaceAll c (text it) REDACTED) Hc).
Qed.

(** After the loop of [redact_txt], a listed literal that is not empty
    and shares no character with the sentinel occurs nowhere. *)
Lemma redact_content_removes (items : list redaction_item) :
  forall c it, In it items -> plain_literal (text it) ->
  ~ occurs (text it) (redact_content c items).
Proof.
  induction items as [|it0 items IH]; intros c it Hin Hp; [contradiction|].
  destruct Hin as [->|Hin].
  - cbn [redact_content fold_left].
    apply (redact_content_keeps_absent items); [exact Hp|].
    destruct Hp as [Hl Hd].
    exact (@ReplaceAll_removes (text it) REDACTED c _ REDACTED_not_empty Hd
             (replace_ReplaceAll c (text it) REDACTED) Hl).
  - cbn [redact_content fold_left]. now apply IH.
Qed.

End RemovalFacts.

(** X5. After [redact_txt]'s loop, a listed literal that is not empty and
    has no character in common with [[REDACTED]] occurs nowhere in the
    result, whatever the other literals of the list are; after
    [redact_docx]'s loop the same holds in a paragraph without carriage
    return.  Both conditions matter: the literal "a[" still occurs after
    "aa[" has been redacted with it, and in the paragraph "x", carriage
    return, "y Z" the literal "x", line feed, "y" does not occur when its
    turn comes but does once the literal "Z" has made the paragraph be
    assigned. *)
Theorem redacted_literal_is_gone
  (c : pystr) (redaction_items : list redaction_item) (it : redaction_item) :
  In it redaction_items ->
  plain_literal (text it) ->
  ~ occurs (text it) (redact_content c redaction_items) /\
  (~ In carriage_return c ->
   ~ occurs (text it) (redact_paragraph c redaction_items)) /\
  occurs (str "a[") (redact_content (str "aa[") [item "a["]) /\
  occurs (text two_line_literal)
         (redact_paragraph broken_line_paragraph [two_line_literal; item "Z"]).
Proof.
  intros Hin Hp. split; [|split; [|split]].
  - now apply redact_content_removes.
  - intros Hc. rewrite redact_paragraph_content by exact Hc.
    now apply redact_content_removes.
  - exists [], (str "REDACTED]"). reflexivity.
  - exists [], (str " [REDACTED]"). reflexivity.
Qed.

Lemma redacted_literal_is_gone_witness :
  In (item "a@b.com") [item "555-0100"; item "a@b.com"] /\
  plain_literal (text (item "a@b.com")) /\
  ~ In carriage_return (str "Email: a@b.com, a@b.com") /\
  ~ occurs (text (item "a@b.com"))
      (redact_content (str "Email: a@b.com, a@b.com")
         [item "555-0100"; item "a@b.com"]) /\
  ~ occurs (text (item "a@b.com"))
      (redact_paragraph (str "Email: a@b.com, a@b.com")
         [item "555-0100"; item "a@b.com"]).
Proof.
  assert (Hin : In (item "a@b.com") [item "555-0100"; item "a@b.com"])
    by (right; left; reflexivity).
  assert (Hp : plain_literal (text (item "a@b.com")))
    by (apply plain_literalb_true; reflexivity).
  assert (Hc : ~ In carriage_return (str "Email: a@b.com, a@b.com")).
  { intros H. vm_compute in H.
    repeat (destruct H as [H|H]; [discriminate|]). exact H. }
  split; [exact Hin|]. split; [exact Hp|]. split; [exact Hc|].
  pose proof (@redacted_literal_is_gone (str "Email: a@b.com, a@b.com")
                [item "555-0100"; item "a@b.com"] (item "a@b.com") Hin Hp)
    as [H1 [H2 _]].
  split; [exact H1 | exact (H2 Hc)].
Defined.

(** X6. Redacting a second time with the same literals changes nothing
    more when every literal is non-empty and has no character in common
    with [[REDACTED]]: always for [redact_txt]'s loop, and for
    [redact_docx]'s loop in a paragraph without carriage return.  In the
    paragraph "x", carriage return, "y Z" a second pass with the literals
    "x", line feed, "y" and "Z" does change the result of the first. *)
Theorem redaction_is_idempotent
  (c : pystr) (redaction_items : list redaction_item) :
  Forall (fun it => plain_literal (text it)) redaction_items ->
  redact_content (redact_content c redaction_items) redaction_items =
    redact_content c redaction_items /\
  (~ In carriage_return c ->
   redact_paragraph (redact_paragraph c redaction_items) redaction_items =
     redact_paragraph c redaction_items) /\
  redact_paragraph
    (redact_paragraph broken_line_paragraph [two_line_literal; item "Z"])
    [two_line_literal; item "Z"] <>
  redact_paragraph broken_line_paragraph [two_line_literal; item "Z"].
Proof.
  intros Hp.
  assert (H : redact_content (redact_content c redaction_items) redaction_items =
              redact_content c redaction_items).
  { apply redact_content_absent. apply Forall_forall. intros it Hin.
    apply redact_content_removes; [exact Hin|].
    exact (proj1 (Forall_forall _ _) Hp it Hin). }
  split; [exact H|]. split; [|vm_compute; discriminate].
  intros Hc. rewrite (@redact_paragraph_content redaction_items c Hc).
  rewrite redact_paragraph_content; [exact H|].
  now apply redact_content_keeps_plain.
Qed.

Lemma redaction_is_idempotent_witness :
  Forall (fun it => plain_literal (text it)) [item "aa"; item "b"] /\
  ~ In carriage_return (str "aaab") /\
  redact_content (redact_content (str "aaab") [item "aa"; item "b"])
                 [item "aa"; item "b"] =
    redact_content (str "aaab") [item "aa"; item "b"] /\
  redact_paragraph (redact_paragraph (str "aaab") [item "aa"; item "b"])
                   [item "aa"; item "b"] =
    redact_paragraph (str "aaab") [item "aa"; item "b"].
Proof.
  assert (Hp : Forall (fun it => plain_literal (text it)) [item "aa"; item "b"])
    by (repeat constructor; apply plain_literalb_true; reflexivity).
  assert (Hc : ~ In carriage_return (str "aaab")).
  { intros H. vm_compute in H.
    repeat (destruct H as [H|H]; [discriminate|]). exact H. }
  split; [exact Hp|]. split; [exact Hc|].
  pose proof (@redaction_is_idempotent (str "aaab") [item "aa"; item "b"] Hp)
    as [H1 [H2 _]].
  split; [exact H1 | exact (H2 Hc)].
Defined.

(* ================================================================= *)
(** * File names: [allowed_file] *)

Section FileNameFacts.
Variable lower_other : pystr -> nat -> pystr.

Lemma pystr_eqb_eq (a b : pystr) : pystr_eqb a b = true <-> a = b.
Proof.
  unfold pystr_eqb. destruct (list_eq_dec N.eq_dec a b); split;
    intros H; try reflexivity; try assumption; try discriminate; contradiction.
Qed.

Lemma contains_char (c : codepoint) (s : pystr) :
  contains [c] s = true <-> In c s.
Proof.
  rewrite contains_iff. unfold occurs. split.
  - intros [pre [rest ->]]. apply in_or_app. right. now left.
  - intros H. apply in_split in H as [pre [rest ->]]. now exists pre, rest.
Qed.

(** [split_last] cuts at the last separator, and finds none only when
    there is none. *)
Lemma split_last_spec (sep : codepoint) (s : pystr) :
  (split_last sep s = None <-> ~ In sep s) /\
  (forall a b, split_last sep s = Some (a, b) <->
               s = a ++ sep :: b /\ ~ In sep b).
Proof.
  induction s as [|c s [IHn IHs]]; simpl.
  - split.
    + split; [intros _ [] | reflexivity].
    + intros a b. split; [discriminate|]. intros [H _]. destruct a; discriminate.
  - destruct (split_last sep s) as [[a0 b0]|] eqn:E.
    + destruct (proj1 (IHs a0 b0) eq_refl) as [Hs0 Hb0].
      assert (Hin : In sep s)
        by (rewrite Hs0; apply in_or_app; right; now left).
      split.
      * split; [discriminate|]. intros H. exfalso. apply H. now right.
      * intros a b. split.
        -- intros H. injection H as <- <-. split; [now rewrite Hs0 | exact Hb0].
        -- intros [H Hb]. destruct a as [|c' a]; simpl in H.
           ++ injection H as _ H. subst b. contradiction.
           ++ injection H as <- H.
              pose proof (proj2 (IHs a b) (conj H Hb)) as Hsome.
              now injection Hsome as -> ->.
    + pose proof (proj1 IHn eq_refl) as Hnot.
      destruct (N.eqb c sep) eqn:Ec.
      * apply N.eqb_eq in Ec. subst c. split.
        -- split; [discriminate|]. intros H. exfalso. apply H. now left.
        -- intros a b. split.
           ++ intros H. injection H as <- <-. now split.
           ++ intros [H Hb]. destruct a as [|c' a]; simpl in H.
              ** injection H as H. now subst b.
              ** injection H as _ H. exfalso. apply Hnot. rewrite H.
                 apply in_or_app. right. now left.
      * apply N.eqb_neq in Ec. split.
        -- split; [|reflexivity]. intros _ [H|H]; [now apply Ec | now apply Hnot].
        -- intros a b. split; [discriminate|].
           intros [H Hb]. exfalso. destruct a as [|c' a]; simpl in H.
           ++ injection H as H _. now apply Ec.
           ++ injection H as _ H. apply Hnot. rewrite H.
              apply in_or_app. right. now left.
Qed.

Lemma lower_from_ascii (whole : pystr) (s : pystr) :
  forall i, Forall (fun c => is_ascii c = true) s ->
  lower_from lower_other whole i s = map ascii_lower s.
Proof.
  induction s as [|c s IH]; intros i H; [reflexivity|].
  inversion H as [|? ? Hc Hs]; subst. simpl. rewrite Hc. simpl.
  f_equal. now apply IH.
Qed.

End FileNameFacts.

(** X7. [allowed_file] never fails on the subscript, and accepts a name
    exactly when the name has a dot and what follows its last dot
    lower-cases to "txt" or "docx"; only the last extension counts, and a
    name without a dot is refused.  An extension of ASCII characters is
    lower-cased character by character, so letter case is ignored. *)
Theorem allowed_file_last_extension
  (lower_other : pystr -> nat -> pystr) (filename : pystr) :
  exists accepted,
    allowed_file lower_other filename = Some accepted /\
    (accepted = true <->
     exists base ext,
       filename = base ++ cp "." :: ext /\
       ~ In (cp ".") ext /\
       (str_lower lower_other ext = str "txt" \/
        str_lower lower_other ext = str "docx")) /\
    (forall ext,
       Forall (fun c => is_ascii c = true) ext ->
       str_lower lower_other ext = map ascii_lower ext).
Proof.
  assert (Hmem : forall e,
    existsb (pystr_eqb e) ALLOWED_EXTENSIONS = true <->
    e = str "txt" \/ e = str "docx").
  { intros e. unfold ALLOWED_EXTENSIONS. cbn [existsb].
    rewrite orb_false_r, orb_true_iff, !pystr_eqb_eq. reflexivity. }
  destruct (split_last_spec (cp ".") filename) as [Hn Hs].
  unfold allowed_file, rsplit1.
  change (str ".") with [cp "."].
  destruct (contains [cp "."] filename) eqn:Ec.
  - apply contains_char in Ec.
    destruct (split_last (cp ".") filename) as [[a b]|] eqn:E.
    + destruct (proj1 (Hs a b) eq_refl) as [Hf Hb].
      cbn [nth_error]. eexists. split; [reflexivity|]. split.
      * rewrite Hmem. split.
        -- intros H. exists a, b. now repeat split.
        -- intros [base [ext [H1 [H2 H3]]]].
           pose proof (proj2 (Hs base ext) (conj H1 H2)) as Hsome.
           injection Hsome as -> ->. exact H3.
      * intros ext Hext. now apply lower_from_ascii.
    + exfalso. now apply (proj1 Hn eq_refl).
  - exists false. split; [reflexivity|]. split.
    + split; [discriminate|]. intros [base [ext [H1 _]]].
      assert (Hin : In (cp ".") filename)
        by (rewrite H1; apply in_or_app; right; now left).
      apply contains_char in Hin. congruence.
    + intros ext Hext. now apply lower_from_ascii.
Qed.

(* ================================================================= *)
(** * Analysis followed by redaction *)

Section AnalysisFacts.

Lemma append_loop (A : Type) (l acc : list A) :
  fold_left (fun acc x => acc ++ [x]) l acc = acc ++ l.
Proof.
  revert acc; induction l as [|x l IH]; intros acc; simpl.
  - now rewrite app_nil_r.
  - rewrite IH. now rewrite <- app_assoc.
Qed.

(** A slice is a piece of the string it is taken from. *)
Lemma slice_occurs (T : pystr) (a b : Z) : occurs (slice T a b) T.
Proof.
  unfold slice, occurs.
  set (a' := Z.to_nat (slice_index (Z.of_nat (length T)) a)).
  set (n := Z.to_nat (slice_index (Z.of_nat (length T)) b) - a').
  exists (firstn a' T), (skipn n (skipn a' T)).
  now rewrite firstn_skipn, firstn_skipn.
Qed.

(** Replacing an occurring literal puts the replacement into the text. *)
Lemma ReplaceAll_puts_new (old new s out : pystr) :
  ReplaceAll old new s out -> occurs old s -> occurs new out.
Proof.
  intros H Ho. destruct H as [s He | s Hne Habs | pre rest out Hne Hlm Hr].
  - destruct s; simpl.
    + exists [], []. now rewrite app_nil_r.
    + exists [], (c :: sentinel_at_every_gap new s). reflexivity.
  - destruct Ho as [x [y Ho]]. exfalso. now apply (Habs x y).
  - now exists pre, out.
Qed.

(** An occurrence, in the join of some lines, of a text without line
    feed lies in one of the lines. *)
Lemma join_occurs (l : pystr) (ps : list pystr) :
  l <> [] -> ~ In newline l ->
  occurs l (join [newline] ps) -> exists p, In p ps /\ occurs l p.
Proof.
  intros Hl Hnl. induction ps as [|s ps IH]; intros Ho.
  - destruct Ho as [x [y Ho]]. simpl in Ho. exfalso.
    destruct x; [destruct l; [contradiction|]|]; discriminate.
  - destruct ps as [|s2 ps].
    + exists s. split; [now left | exact Ho].
    + change (join [newline] (s :: s2 :: ps))
        with (s ++ [newline] ++ join [newline] (s2 :: ps)) in Ho.
      destruct Ho as [x [y Ho]]. symmetry in Ho.
      assert (Hd : no_common_char l [newline]).
      { intros c Hc [<-|[]]. contradiction. }
      assert (Hn : [newline] <> []) by discriminate.
      destruct (@occurrence_beside l [newline] _ _ _ _ Hl Hn Hd Ho)
        as [[b Hb]|[a Ha]].
      * exists s. split; [now left | now exists x, b].
      * destruct IH as [p [Hp Hop]]; [now exists a, y|].
        exists p. split; [now right | exact Hop].
Qed.

(** Every item carries the slice of the scanned text between its
    offsets. *)
Lemma item_text_is_slice (db : unicode_db)
  (PhoneNumberMatcher : pystr -> iteration phone_match) (T : pystr)
  (i : pii_item) :
  In i (detect_pii db PhoneNumberMatcher T) ->
  pii_text i = slice T (pii_start i) (pii_end i).
Proof.
  intros Hin. apply detect_pii_In in Hin.
  destruct (pii_type i);
    try exact (proj2 (proj2
      (proj1 (Forall_forall _ _) (pattern_items_in_text db _ _ _ T) i Hin))).
  exact (proj2 (proj2
    (proj1 (Forall_forall _ _) (phone_items_text _ T) i Hin))).
Qed.

End AnalysisFacts.

(** X8. Every item [process_txt] reports has a text that occurs in the
    text analysed, so redacting the file with that item alone always puts
    the sentinel into the content written. *)
Theorem process_txt_items_can_be_redacted
  (db : unicode_db) (PhoneNumberMatcher : pystr -> iteration phone_match)
  (fs : filesystem) (file_path output_path : string) (content : pystr) :
  fs file_path = Some (TxtFile content) ->
  exists a,
    process_txt db PhoneNumberMatcher fs file_path = Some a /\
    an_text a = content /\
    an_pii_items a = detect_pii db PhoneNumberMatcher content /\
    forall i, In i (an_pii_items a) ->
      occurs (pii_text i) content /\
      exists content',
        redact_txt fs file_path [ {| text := pii_text i |} ] output_path =
          Some (write_file fs output_path (TxtFile content'), output_path) /\
        occurs REDACTED content'.
Proof.
  intros Hfs. unfold process_txt. rewrite Hfs. eexists.
  split; [reflexivity|]. split; [reflexivity|]. split; [reflexivity|].
  cbn [an_pii_items]. intros i Hin.
  assert (Ho : occurs (pii_text i) content).
  { rewrite (item_text_is_slice db PhoneNumberMatcher content i Hin).
    apply slice_occurs. }
  split; [exact Ho|].
  unfold redact_txt. rewrite Hfs. eexists. split; [reflexivity|].
  cbn [redact_content fold_left text].
  exact (ReplaceAll_puts_new (replace_ReplaceAll content (pii_text i) REDACTED) Ho).
Qed.

Lemma process_txt_items_can_be_redacted_witness :
  sample_uploads "/tmp/uploads/7f3a.txt"%string =
    Some (TxtFile (str "SSN 123-45-6789 on file")) /\
  exists a,
    process_txt ascii_only_db matcher_none sample_uploads "/tmp/uploads/7f3a.txt"
      = Some a /\
    an_text a = str "SSN 123-45-6789 on file" /\
    an_pii_items a =
      detect_pii ascii_only_db matcher_none (str "SSN 123-45-6789 on file") /\
    forall i, In i (an_pii_items a) ->
      occurs (pii_text i) (str "SSN 123-45-6789 on file") /\
      exists content',
        redact_txt sample_uploads "/tmp/uploads/7f3a.txt"
          [ {| text := pii_text i |} ] "/tmp/processed/7f3a_redacted.txt" =
          Some (write_file sample_uploads "/tmp/processed/7f3a_redacted.txt"
                  (TxtFile content'),
                "/tmp/processed/7f3a_redacted.txt"%string) /\
        occurs REDACTED content'.
Proof.
  split; [reflexivity|].
  exact (@process_txt_items_can_be_redacted ascii_only_db matcher_none
           sample_uploads "/tmp/uploads/7f3a.txt"
           "/tmp/processed/7f3a_redacted.txt"
           (str "SSN 123-45-6789 on file") eq_refl).
Defined.

(** X9. [process_docx] analyses the paragraphs joined by line feeds,
    while [redact_docx] works paragraph by paragraph.  A reported item
    without line feed occurs in some paragraph, and redacting with it puts
    the sentinel there; a reported item that contains a line feed leaves
    every paragraph without line feed as it is.  Such items exist: in the
    paragraphs "12 Main" and "Street" the address pattern, whose [\s]
    accepts the line feed, finds an address across the two. *)
Theorem process_docx_items_and_paragraphs
  (db : unicode_db) (PhoneNumberMatcher : pystr -> iteration phone_match)
  (fs : filesystem) (file_path : string) (paragraphs : list pystr) :
  fs file_path = Some (DocxFile paragraphs) ->
  exists a,
    process_docx db PhoneNumberMatcher fs file_path = Some a /\
    an_paragraphs a = Some paragraphs /\
    an_text a = join [newline] paragraphs /\
    an_pii_items a = detect_pii db PhoneNumberMatcher (join [newline] paragraphs) /\
    (forall i, In i (an_pii_items a) ->
       (pii_text i <> [] -> ~ In newline (pii_text i) ->
        exists p, In p paragraphs /\ occurs (pii_text i) p /\
                  occurs REDACTED (redact_paragraph p [ {| text := pii_text i |} ])) /\
       (In newline (pii_text i) ->
        forall p, In p paragraphs -> ~ In newline p ->
                  redact_paragraph p [ {| text := pii_text i |} ] = p)) /\
    (exists i,
       In i (detect_pii ascii_only_db matcher_none
               (join [newline] [str "Email: a@b.com"; str "12 Main"; str "Street"])) /\
       pii_type i = address /\ In newline (pii_text i)).
Proof.
  intros Hfs. unfold process_docx. rewrite Hfs. rewrite append_loop. simpl app.
  eexists. split; [reflexivity|]. split; [reflexivity|].
  split; [reflexivity|]. split; [reflexivity|]. split.
  - cbn [an_pii_items]. intros i Hin. split.
    + intros Hne Hnl.
      assert (Ho : occurs (pii_text i) (join [newline] paragraphs)).
      { rewrite (item_text_is_slice db PhoneNumberMatcher _ i Hin).
        apply slice_occurs. }
      destruct (@join_occurs (pii_text i) paragraphs Hne Hnl Ho) as [p [Hp Hop]].
      exists p. split; [exact Hp|]. split; [exact Hop|].
      cbn [redact_paragraph fold_left text].
      rewrite (proj2 (contains_iff _ _) Hop). apply assign_text_keeps_sentinel.
      exact (ReplaceAll_puts_new (replace_ReplaceAll p (pii_text i) REDACTED) Hop).
    + intros Hnl p Hp Hpn. apply redact_paragraph_absent. constructor; [|constructor].
      cbn [text]. intros [x [y Ho]]. apply Hpn. rewrite Ho.
      apply in_or_app. right. apply in_or_app. now left.
  - exists {| pii_type := address; pii_text := str "12 Main" ++ newline :: str "Street";
              pii_start := 15; pii_end := 29; pii_confidence := medium |}.
    split; [vm_compute; right; left; reflexivity|].
    split; [reflexivity|]. vm_compute. do 7 right. now left.
Qed.

Lemma process_docx_items_and_paragraphs_witness :
  sample_uploads "/tmp/uploads/9c1e.docx"%string =
    Some (DocxFile [str "Email: a@b.com"; str "12 Main"; str "Street"]) /\
  exists a,
    process_docx ascii_only_db matcher_none sample_uploads "/tmp/uploads/9c1e.docx"
      = Some a /\
    an_paragraphs a = Some [str "Email: a@b.com"; str "12 Main"; str "Street"] /\
    an_text a = join [newline] [str "Email: a@b.com"; str "12 Main"; str "Street"].
Proof.
  split; [reflexivity|].
  destruct (@process_docx_items_and_paragraphs ascii_only_db matcher_none
              sample_uploads "/tmp/uploads/9c1e.docx"
              [str "Email: a@b.com"; str "12 Main"; str "Street"] eq_refl)
    as [a [H1 [H2 [H3 _]]]].
  exists a. now repeat split.
Defined.

(* ================================================================= *)
(** * The routes: [redact_document] and [download_file] *)

Section RouteFacts.
Variable failure_text : string.


Lemma write_file_other (fs : filesystem) (path p : string) (f : file) :
  p <> path -> write_file fs path f p = fs p.
Proof.
  intros H. unfold write_file. destruct (String.eqb p path) eqn:E; [|reflexivity].
  apply String.eqb_eq in E. contradiction.
Qed.

Lemma prefix_empty (s : string) : String.prefix "" s = true.
Proof. destruct s; reflexivity. Qed.

(** A name that starts with a non-empty [file_id] starts like it. *)
Lemma prefix_first (a b : string) (c : ascii) (a' : string) :
  String.prefix a b = true -> a = String c a' ->
  exists b', b = String c b'.
Proof.
  intros H ->. destruct b as [|d b]; cbn -[ascii_dec] in H; [discriminate|].
  destruct (ascii_dec c d) as [<-|]; [|discriminate]. now exists b.
Qed.

(** The output path lies in the folder of processed files when no listed
    name starts with a slash. *)
Lemma output_path_processed (listing : list string) (fid d f : string)
  (rest : list string) :
  Forall (fun n => String.prefix "/" n = false) listing ->
  filter (String.prefix fid) listing = f :: rest ->
  path_join PROCESSED_FOLDER (fid ++ "_redacted." ++ d) =
  ("/tmp/processed/" ++ fid ++ "_redacted." ++ d)%string.
Proof.
  intros Hl Hf.
  assert (Hin : In f (filter (String.prefix fid) listing))
    by (rewrite Hf; now left).
  apply filter_In in Hin as [Hin Hp].
  pose proof (proj1 (Forall_forall _ _) Hl f Hin) as Hfs.
  assert (Hrel : String.prefix "/" (fid ++ "_redacted." ++ d) = false).
  { destruct fid as [|c fid']; [reflexivity|].
    destruct (@prefix_first (String c fid') f c fid' Hp eq_refl) as [f' ->].
    cbn -[ascii_dec] in Hfs |- *.
    destruct (ascii_dec "/" c); [|reflexivity].
    now rewrite prefix_empty in Hfs. }
  unfold path_join. rewrite Hrel. reflexivity.
Qed.


Lemma prefix_uploads_processed (x : string) :
  String.prefix "/tmp/uploads/" ("/tmp/processed/" ++ x) = false.
Proof. reflexivity. Qed.

End RouteFacts.



(** X11. For a [document_type] other than "docx" and "txt" the route
    redacts nothing and writes nothing, and still answers with success
    and with the name and download address of an output file. *)
Theorem redact_document_unknown_type
  (failure_text : string) (listing : list string) (fs : filesystem)
  (fid d : string) (reds : list redaction_item)
  (f : string) (rest : list string) :
  filter (String.prefix fid) listing = f :: rest ->
  d <> "docx"%string -> d <> "txt"%string ->
  redact_document failure_text listing fs
    (Some {| file_id := Some fid; redactions := Some reds;
             document_type := Some d |}) =
  (JsonRedacted (fid ++ "_redacted." ++ d)
     ("/api/redaction/download/" ++ fid ++ "_redacted." ++ d), fs).
Proof.
  intros Hf Hd Ht. unfold redact_document. rewrite Hf.
  apply String.eqb_neq in Hd, Ht. now rewrite Hd, Ht.
Qed.

Lemma redact_document_unknown_type_witness :
  filter (String.prefix "7f3a") sample_listing = ["7f3a.txt"%string] /\
  "pdf"%string <> "docx"%string /\ "pdf"%string <> "txt"%string /\
  redact_document "failure" sample_listing sample_uploads
    (Some {| file_id := Some "7f3a"%string;
             redactions := Some [item "123-45-6789"];
             document_type := Some "pdf"%string |}) =
  (JsonRedacted "7f3a_redacted.pdf" "/api/redaction/download/7f3a_redacted.pdf",
   sample_uploads).
Proof.
  assert (H1 : "pdf"%string <> "docx"%string) by discriminate.
  assert (H2 : "pdf"%string <> "txt"%string) by discriminate.
  split; [reflexivity|]. split; [exact H1|]. split; [exact H2|].
  exact (@redact_document_unknown_type "failure" sample_listing sample_uploads
           "7f3a" "pdf" [item "123-45-6789"] "7f3a.txt" [] eq_refl H1 H2).
Defined.

(** X12. For every value [get_json] returns, [redact_document] leaves
    every file of the upload folder as it was (a listed name contains no
    slash, so neither does a [file_id] that begins one), and when it
    answers with an error it has written nothing at all.  The JSON body
    [null], and an object without ['file_id'] or without ['redactions'],
    are answered with status 400, a [file_id] that begins no listed name
    with 404. *)
Theorem redact_document_keeps_uploads
  (failure_text : string) (listing : list string) (fs : filesystem)
  (data : option redact_request) :
  Forall (fun n => ~ In "/"%char (list_ascii_of_string n)) listing ->
  (forall p, String.prefix "/tmp/uploads/" p = true ->
             snd (redact_document failure_text listing fs data) p = fs p) /\
  (forall e st,
     fst (redact_document failure_text listing fs data) = JsonError e st ->
     snd (redact_document failure_text listing fs data) = fs) /\
  (data = None \/
   (exists r, data = Some r /\ (file_id r = None \/ redactions r = None)) ->
   redact_document failure_text listing fs data =
     (JsonError "Missing required data" 400, fs)) /\
  (forall fid reds dt,
     data = Some {| file_id := Some fid; redactions := Some reds;
                    document_type := dt |} ->
     filter (String.prefix fid) listing = [] ->
     redact_document failure_text listing fs data =
       (JsonError "Original file not found" 404, fs)).
Proof.
  intros Hns.
  assert (Hl : Forall (fun n => String.prefix "/" n = false) listing).
  { revert Hns. apply Forall_impl. intros n Hn.
    destruct n as [|c n]; [reflexivity|]. cbn -[ascii_dec].
    destruct (ascii_dec "/" c) as [<-|]; [|reflexivity].
    exfalso. apply Hn. now left. }
  assert (Hframe : forall x f p,
            String.prefix "/tmp/uploads/" p = true ->
            write_file fs ("/tmp/processed/" ++ x) f p = fs p).
  { intros x f p Hp. apply write_file_other. intros ->.
    rewrite prefix_uploads_processed in Hp. discriminate. }
  split; [|split; [|split]].
  - intros p Hp. unfold redact_document.
    destruct data as [[[fid|] [reds|] dt]|]; try reflexivity.
    destruct (filter (String.prefix fid) listing) as [|f rest] eqn:Hf;
      [reflexivity|].
    rewrite (output_path_processed _ _ Hl Hf).
    destruct (String.eqb _ "docx").
    + unfold redact_docx. destruct (fs (path_join UPLOAD_FOLDER f)) as [[|]|];
        try reflexivity. simpl. now apply Hframe.
    + destruct (String.eqb _ "txt"); [|reflexivity].
      unfold redact_txt. destruct (fs (path_join UPLOAD_FOLDER f)) as [[|]|];
        try reflexivity. simpl. now apply Hframe.
  - intros e st. unfold redact_document.
    destruct data as [[[fid|] [reds|] dt]|]; try reflexivity.
    destruct (filter (String.prefix fid) listing) as [|f rest];
      [reflexivity|].
    destruct (String.eqb _ "docx").
    + destruct (redact_docx _ _ _ _) as [[fs' o]|]; [discriminate | reflexivity].
    + destruct (String.eqb _ "txt"); [|discriminate].
      destruct (redact_txt _ _ _ _) as [[fs' o]|]; [discriminate | reflexivity].
  - intros [->|[r [-> [H|H]]]]; [reflexivity| |];
      destruct r as [fid reds dt]; simpl in H; subst; [reflexivity|].
    now destruct fid.
  - intros fid reds dt -> Hf. unfold redact_document. now rewrite Hf.
Qed.

Lemma redact_document_keeps_uploads_witness :
  Forall (fun n => ~ In "/"%char (list_ascii_of_string n)) sample_listing /\
  snd (redact_document "failure" sample_listing sample_uploads
         (Some sample_request)) "/tmp/uploads/7f3a.txt"%string =
    Some (TxtFile (str "SSN 123-45-6789 on file")).
Proof.
  assert (Hl : Forall (fun n => ~ In "/"%char (list_ascii_of_string n))
                      sample_listing).
  { repeat constructor; cbn; intros H;
      repeat (destruct H as [H|H]; [discriminate|]); exact H. }
  split; [exact Hl|].
  exact (proj1 (@redact_document_keeps_uploads "failure" sample_listing
                  sample_uploads (Some sample_request) Hl)
               "/tmp/uploads/7f3a.txt"%string eq_refl).
Defined.

(* ================================================================= *)
(** * The matcher only finds what the pattern describes *)

Section MatchesFacts.
Variable db : unicode_db.
Variable fl : flags.
Variable T : pystr.

Lemma repeat_until_matches
  (body : nat -> (nat -> option nat) -> option nat) (k : nat -> option nat)
  (r : regex) :
  (forall pos k0 e, pos <= length T -> body pos k0 = Some e ->
     exists w, pos + w <= length T /\
               Matches db fl r (firstn w (skipn pos T)) /\
               k0 (pos + w) = Some e) ->
  forall budget need last pos e, pos <= length T ->
  repeat_until body k budget need last pos = Some e ->
  exists w, pos + w <= length T /\
            Matches db fl (Repeat r need budget) (firstn w (skipn pos T)) /\
            k (pos + w) = Some e.
Proof.
  intros Hbody.
  assert (Hzero : forall pos e budget, pos <= length T -> k pos = Some e ->
            exists w, pos + w <= length T /\
                      Matches db fl (Repeat r 0 budget) (firstn w (skipn pos T)) /\
                      k (pos + w) = Some e).
  { intros pos e budget Hpos H. exists 0. rewrite Nat.add_0_r.
    split; [lia|]. split; [apply Matches_Repeat_stop | exact H]. }
  induction budget as [|budget IHb]; intros need last pos e Hpos H.
  - destruct need; simpl in H; [|discriminate]. now apply Hzero.
  - assert (Hround : forall need' last',
              body pos (fun p => repeat_until body k budget need' last' p) = Some e ->
              exists w, pos + w <= length T /\
                Matches db fl (Repeat r (S need') (S budget)) (firstn w (skipn pos T)) /\
                k (pos + w) = Some e).
    { intros need' last' H0. apply Hbody in H0; [|exact Hpos].
      destruct H0 as [w1 [A1 [A2 H0]]].
      apply IHb in H0; [|exact A1].
      destruct H0 as [w2 [B1 [B2 H0]]].
      exists (w1 + w2). split; [lia|]. split.
      - rewrite firstn_add_skipn. exact (Matches_Repeat_round (S need') A2 B2).
      - now rewrite Nat.add_assoc. }
    destruct need as [|need]; simpl in H.
    + destruct (last_is last pos); [now apply Hzero|].
      match type of H with
      | match ?m with _ => _ end = _ => destruct m eqn:E
      end.
      * injection H as <-.
        assert (E' : body pos (fun p => repeat_until body k budget 0 (Some pos) p)
                     = Some n) by exact E.
        clear E. revert E'. intros E.
        apply Hbody in E; [|exact Hpos].
        destruct E as [w1 [A1 [A2 E]]].
        apply IHb in E; [|exact A1].
        destruct E as [w2 [B1 [B2 E]]].
        exists (w1 + w2). split; [lia|]. split.
        -- rewrite firstn_add_skipn.
           exact (Matches_Repeat_round 0 A2 B2).
        -- now rewrite Nat.add_assoc.
      * now apply Hzero.
    + exact (Hround need last H).
Qed.

(** What a successful match consumes is a string the pattern matches. *)
Lemma match_at_matches (r : regex) :
  forall pos k e, pos <= length T ->
  match_at db fl T r pos k = Some e ->
  exists w, pos + w <= length T /\
            Matches db fl r (firstn w (skipn pos T)) /\
            k (pos + w) = Some e.
Proof.
  assert (Hchar : forall r0 pos (k : nat -> option nat) e,
    is_char_item r0 = true ->
    match nth_error T pos with
    | Some c => if char_match db fl r0 c then k (S pos) else None
    | None => None
    end = Some e ->
    exists w, pos + w <= length T /\
              Matches db fl r0 (firstn w (skipn pos T)) /\
              k (pos + w) = Some e).
  { intros r0 pos k e Hr H.
    destruct (nth_error T pos) as [c|] eqn:E; [|discriminate].
    destruct (char_match db fl r0 c) eqn:Ec; [|discriminate].
    assert (pos < length T) by (apply nth_error_Some; congruence).
    exists 1. rewrite Nat.add_1_r. split; [lia|]. split; [|exact H].
    rewrite (firstn_one_skipn _ _ E). now apply Matches_char. }
  induction r as [| |c| | |items| |r1 IH1 r2 IH2|r1 IH1 r2 IH2|r1 IH1
                  |r1 IH1 lo hi|r1 IH1 lo hi];
    intros pos k e Hpos H; cbn [match_at] in H.
  - exists 0. rewrite Nat.add_0_r. split; [lia|]. split; [constructor | exact H].
  - discriminate.
  - now apply Hchar.
  - now apply Hchar.
  - now apply Hchar.
  - now apply Hchar.
  - destruct (at_boundary db T pos); [|discriminate].
    exists 0. rewrite Nat.add_0_r. split; [lia|]. split; [constructor | exact H].
  - apply IH1 in H; [|exact Hpos]. destruct H as [w1 [A1 [A2 H]]].
    apply IH2 in H; [|exact A1]. destruct H as [w2 [B1 [B2 H]]].
    exists (w1 + w2). split; [lia|]. split.
    + rewrite firstn_add_skipn. now apply Matches_Seq.
    + now rewrite Nat.add_assoc.
  - destruct (match_at db fl T r1 pos k) eqn:E.
    + injection H as <-. apply IH1 in E; [|exact Hpos].
      destruct E as [w [A1 [A2 E]]]. exists w.
      split; [exact A1|]. split; [now apply Matches_Alt_l | exact E].
    + apply IH2 in H; [|exact Hpos].
      destruct H as [w [A1 [A2 H]]]. exists w.
      split; [exact A1|]. split; [now apply Matches_Alt_r | exact H].
  - apply IH1 in H; [|exact Hpos].
    destruct H as [w [A1 [A2 H]]]. exists w.
    split; [exact A1|]. split; [now apply Matches_Group | exact H].
  - apply backoff_range in H as [i [Hlo [Hi H]]].
    pose proof (count_run_le db fl r1 (skipn pos T) hi) as Hc.
    rewrite length_skipn in Hc.
    exists i. split; [lia|]. split; [|exact H].
    apply Matches_RepeatOne.
    + rewrite length_firstn, length_skipn. lia.
    + intros h ->. rewrite length_firstn, length_skipn.
      pose proof (count_run_limit db fl r1 (skipn pos T) h). lia.
    + eapply count_run_accepts. exact Hi.
  - eapply repeat_until_matches in H; [exact H | | exact Hpos].
    intros p k0 e0. apply IH1.
Qed.

(** Every match of a scan is a string the pattern matches. *)
Lemma finditer_matches_pattern (r : regex) :
  Forall (fun m => fst m <= snd m /\ snd m <= length T /\
                   Matches db fl r (substring T (fst m) (snd m)))
         (finditer db fl T r).
Proof.
  eapply Forall_impl; [|apply finditer_matches].
  intros [s e]. simpl. intros [Hs [adv H]]. unfold match_from in H.
  apply match_at_matches in H; [|exact Hs].
  destruct H as [w [A1 [A2 H]]].
  destruct (adv && (s + w =? s)); [discriminate|]. injection H as <-.
  split; [lia|]. split; [lia|].
  unfold substring. now replace (s + w - s) with w by lia.
Qed.

End MatchesFacts.

Section ItemShapeFacts.
Variable db : unicode_db.
Variable PhoneNumberMatcher : pystr -> iteration phone_match.
Variable T : pystr.

(** The text of an item of a regex category is a string the pattern of
    the category matches. *)
Lemma regex_item_matches (i : pii_item) (p : pattern) :
  In i (detect_pii db PhoneNumberMatcher T) ->
  pattern_of (pii_type i) = Some p ->
  Matches db (pat_flags p) (pat_regex p) (pii_text i).
Proof.
  intros Hin Hp.
  destruct (regex_item_match db PhoneNumberMatcher T i Hin Hp)
    as [[s e] [Hm [Hs [He Ht]]]].
  simpl in Hs, He, Ht.
  pose proof (proj1 (Forall_forall _ _)
                (finditer_matches_pattern db (pat_flags p) T (pat_regex p))
                (s, e) Hm) as [H1 [H2 H3]].
  simpl in H1, H2, H3.
  rewrite Ht, slice_in_text by lia. now rewrite !Nat2Z.id.
Qed.

End ItemShapeFacts.

(* ================================================================= *)
(** * The shape of the items of each regex category *)

Section ShapeInversion.
Variable db : unicode_db.
Variable fl : flags.

Lemma Matches_Seq_inv (r1 r2 : regex) (s : pystr) :
  Matches db fl (Seq r1 r2) s ->
  exists s1 s2, s = s1 ++ s2 /\ Matches db fl r1 s1 /\ Matches db fl r2 s2.
Proof.
  intros H. inversion H; subst; try discriminate. now exists s1, s2.
Qed.

Lemma Matches_Boundary_inv (s : pystr) :
  Matches db fl Boundary s -> s = [].
Proof. intros H. inversion H; subst; try discriminate. reflexivity. Qed.

Lemma Matches_item_inv (r : regex) (s : pystr) :
  is_char_item r = true ->
  Matches db fl r s -> exists c, s = [c] /\ char_match db fl r c = true.
Proof.
  intros Hr H. inversion H; subst; try discriminate. now exists c.
Qed.

Lemma Matches_Group_inv (r : regex) (s : pystr) :
  Matches db fl (Group r) s -> Matches db fl r s.
Proof. intros H. inversion H; subst; try discriminate. assumption. Qed.

Lemma Matches_Alt_inv (r1 r2 : regex) (s : pystr) :
  Matches db fl (Alt r1 r2) s -> Matches db fl r1 s \/ Matches db fl r2 s.
Proof. intros H. inversion H; subst; try discriminate; tauto. Qed.

Lemma Matches_RepeatOne_inv (r : regex) (lo : nat) (hi : option nat)
  (s : pystr) :
  Matches db fl (RepeatOne r lo hi) s ->
  lo <= length s /\ (forall h, hi = Some h -> length s <= h) /\
  Forall (fun c => char_match db fl r c = true) s.
Proof. intros H. inversion H; subst; try discriminate. now repeat split. Qed.

Lemma Matches_Repeat_inv (r : regex) (lo hi : nat) (s : pystr) :
  Matches db fl (Repeat r lo hi) s ->
  (lo = 0 /\ s = []) \/
  (exists hi' s1 s2, hi = S hi' /\ s = s1 ++ s2 /\
     Matches db fl r s1 /\ Matches db fl (Repeat r (pred lo) hi') s2).
Proof.
  intros H. inversion H; subst; try discriminate.
  - now left.
  - right. now exists hi0, s1, s2.
Qed.

(** Rounds of at most one accepted character each add up to at most [hi]
    accepted characters. *)
Lemma Matches_Repeat_short (r : regex) (ok : codepoint -> bool) :
  (forall s, Matches db fl r s -> length s <= 1 /\ Forall (fun c => ok c = true) s) ->
  forall hi lo s, Matches db fl (Repeat r lo hi) s ->
  length s <= hi /\ Forall (fun c => ok c = true) s.
Proof.
  intros Hr. induction hi as [|hi IH]; intros lo s H;
    apply Matches_Repeat_inv in H as [[_ ->]|[hi' [s1 [s2 [E [-> [H1 H2]]]]]]];
    try (split; [simpl; lia | constructor]); try discriminate.
  injection E as <-. apply Hr in H1 as [A1 A2]. apply IH in H2 as [B1 B2].
  split; [rewrite length_app; lia | now apply Forall_app].
Qed.

End ShapeInversion.

Ltac split_seq H s1 H1 :=
  let s2 := fresh "rest" in
  let E := fresh "E" in
  apply Matches_Seq_inv in H as [s1 [s2 [E [H1 H]]]];
  try (rewrite E; clear E); try subst.

Section CategoryShapes.
Variable db : unicode_db.

Lemma digits_of_repeat (lo hi : nat) (s : pystr) :
  Matches db plain_flags (RepeatOne Digit lo (Some hi)) s -> digits db lo hi s.
Proof.
  intros H. apply Matches_RepeatOne_inv in H as [H1 [H2 H3]].
  split; [split; [exact H1 | now apply H2] | exact H3].
Qed.

Lemma at_most_one_of_repeat (r : regex) (ok : codepoint -> bool) (s : pystr) :
  (forall c, char_match db plain_flags r c = true -> ok c = true) ->
  Matches db plain_flags (RepeatOne r 0 (Some 1)) s -> at_most_one ok s.
Proof.
  intros Hok H. apply Matches_RepeatOne_inv in H as [_ [H2 H3]].
  specialize (H2 1 eq_refl). destruct s as [|c [|d s]]; simpl in H2; try lia.
  - now left.
  - right. exists c. split; [reflexivity|].
    inversion H3; subst. now apply Hok.
Qed.

Lemma all_of_repeat (r : regex) (ok : codepoint -> bool) (lo : nat)
  (hi : option nat) (s : pystr) :
  (forall c, char_match db plain_flags r c = true -> ok c = true) ->
  Matches db plain_flags (RepeatOne r lo hi) s -> all_of ok lo s.
Proof.
  intros Hok H. apply Matches_RepeatOne_inv in H as [H1 [_ H3]].
  split; [exact H1|]. eapply Forall_impl; [|exact H3]. exact Hok.
Qed.

(** The text of an SSN item. *)
Lemma ssn_shape (s : pystr) :
  Matches db plain_flags (pat_regex ssn_pattern) s ->
  exists a s1 b s2 c,
    s = a ++ s1 ++ b ++ s2 ++ c /\
    digits db 3 3 a /\ at_most_one is_hyphen s1 /\
    digits db 2 2 b /\ at_most_one is_hyphen s2 /\
    digits db 4 4 c.
Proof.
  intros H. cbn in H.
  split_seq H b0 Hb0. split_seq H a Ha. split_seq H s1 Hs1.
  split_seq H b Hb. split_seq H s2 Hs2. split_seq H c Hc.
  apply Matches_Boundary_inv in Hb0, H. subst.
  exists a, s1, b, s2, c. rewrite app_nil_r. simpl.
  assert (Hh : forall x, char_match db plain_flags (Lit 45%N) x = true ->
                         is_hyphen x = true) by (intros x Hx; exact Hx).
  split; [reflexivity|].
  split; [now apply digits_of_repeat|].
  split; [now apply (at_most_one_of_repeat _ Hh)|].
  split; [now apply digits_of_repeat|].
  split; [now apply (at_most_one_of_repeat _ Hh)|].
  now apply digits_of_repeat.
Qed.

Lemma run_of_repeat (r : regex) (fl : flags) (ok : codepoint -> bool)
  (lo hi : nat) (s : pystr) :
  (forall c, char_match db fl r c = true -> ok c = true) ->
  Matches db fl (RepeatOne r lo (Some hi)) s -> run_of ok lo hi s.
Proof.
  intros Hok H. apply Matches_RepeatOne_inv in H as [H1 [H2 H3]].
  split; [split; [exact H1 | now apply H2]|].
  eapply Forall_impl; [|exact H3]. exact Hok.
Qed.

Lemma all_of_repeat_flags (r : regex) (fl : flags) (ok : codepoint -> bool)
  (lo : nat) (hi : option nat) (s : pystr) :
  (forall c, char_match db fl r c = true -> ok c = true) ->
  Matches db fl (RepeatOne r lo hi) s -> all_of ok lo s.
Proof.
  intros Hok H. apply Matches_RepeatOne_inv in H as [H1 [_ H3]].
  split; [exact H1|]. eapply Forall_impl; [|exact H3]. exact Hok.
Qed.

(** The text of a date item. *)
Lemma date_shape (s : pystr) :
  Matches db plain_flags (pat_regex date_pattern) s ->
  exists d x m y yr,
    s = d ++ x :: m ++ y :: yr /\
    digits db 1 2 d /\ is_date_separator x = true /\
    digits db 1 2 m /\ is_date_separator y = true /\
    digits db 2 4 yr.
Proof.
  intros H. cbn in H.
  split_seq H b0 Hb0. split_seq H d Hd. split_seq H x Hx.
  split_seq H m Hm. split_seq H y Hy. split_seq H yr Hyr.
  apply Matches_Boundary_inv in Hb0, H. subst.
  apply Matches_item_inv in Hx as [cx [-> Hx]]; [|reflexivity].
  apply Matches_item_inv in Hy as [cy [-> Hy]]; [|reflexivity].
  exists d, cx, m, cy, yr. rewrite app_nil_r. simpl.
  assert (Hsep : forall c,
            char_match db plain_flags (OneOf (chars "/-")) c = true ->
            is_date_separator c = true).
  { intros c Hc. cbn -[N.eqb] in Hc. unfold is_date_separator.
    cbn -[N.eqb]. now rewrite orb_false_r in Hc. }
  split; [reflexivity|].
  split; [now apply digits_of_repeat|]. split; [now apply Hsep|].
  split; [now apply digits_of_repeat|]. split; [now apply Hsep|].
  now apply digits_of_repeat.
Qed.

(** The text of a card item. *)
Lemma credit_card_shape (s : pystr) :
  Matches db plain_flags (pat_regex credit_card_pattern) s ->
  exists g1 s1 g2 s2 g3 s3 g4,
    s = g1 ++ s1 ++ g2 ++ s2 ++ g3 ++ s3 ++ g4 /\
    digits db 4 4 g1 /\ at_most_one (is_card_separator db) s1 /\
    digits db 4 4 g2 /\ at_most_one (is_card_separator db) s2 /\
    digits db 4 4 g3 /\ at_most_one (is_card_separator db) s3 /\
    digits db 4 4 g4.
Proof.
  intros H. cbn in H.
  split_seq H b0 Hb0. split_seq H groups Hg. split_seq H g4 Hg4.
  apply Matches_Boundary_inv in Hb0, H. subst.
  assert (Hsep : forall c,
            char_match db plain_flags (OneOf [SChar 45%N; SSpace]) c = true ->
            is_card_separator db c = true).
  { intros c Hc. cbn -[N.eqb is_space] in Hc. unfold is_card_separator, is_hyphen.
    cbn -[N.eqb is_space]. now rewrite orb_false_r in Hc. }
  assert (Hgroup : forall u,
            Matches db plain_flags
              (Seq (RepeatOne Digit 4 (Some 4))
                   (RepeatOne (OneOf [SChar 45%N; SSpace]) 0 (Some 1))) u ->
            exists g sp, u = g ++ sp /\ digits db 4 4 g /\
                         at_most_one (is_card_separator db) sp).
  { intros u Hu. apply Matches_Seq_inv in Hu as [g [sp [-> [Hg0 Hsp]]]].
    exists g, sp. split; [reflexivity|].
    split; [now apply digits_of_repeat | now apply (at_most_one_of_repeat _ Hsep)]. }
  apply Matches_Repeat_inv in Hg as [[E _]|[h1 [u1 [t1 [E1 [-> [Hu1 Hg]]]]]]];
    [discriminate|]. injection E1 as <-. simpl in Hg.
  apply Matches_Repeat_inv in Hg as [[E _]|[h2 [u2 [t2 [E2 [-> [Hu2 Hg]]]]]]];
    [discriminate|]. injection E2 as <-. simpl in Hg.
  apply Matches_Repeat_inv in Hg as [[E _]|[h3 [u3 [t3 [E3 [-> [Hu3 Hg]]]]]]];
    [discriminate|]. injection E3 as <-. simpl in Hg.
  apply Matches_Repeat_inv in Hg as [[_ ->]|[h4 [u4 [t4 [E4 _]]]]];
    [|discriminate].
  apply Hgroup in Hu1 as [g1 [s1 [-> [A1 B1]]]].
  apply Hgroup in Hu2 as [g2 [s2 [-> [A2 B2]]]].
  apply Hgroup in Hu3 as [g3 [s3 [-> [A3 B3]]]].
  exists g1, s1, g2, s2, g3, s3, g4.
  split; [simpl; now rewrite !app_nil_r, <- !app_assoc|].
  repeat (split; [assumption|]). now apply digits_of_repeat.
Qed.

(** The text of an IBAN item. *)
Lemma iban_shape (s : pystr) :
  Matches db plain_flags (pat_regex iban_pattern) s ->
  exists country chk bank account trailing,
    s = country ++ chk ++ bank ++ account ++ trailing /\
    run_of is_capital 2 2 country /\ digits db 2 2 chk /\
    run_of is_capital_or_digit 4 4 bank /\ digits db 7 7 account /\
    run_of is_capital_or_digit 0 16 trailing.
Proof.
  intros H. cbn in H.
  split_seq H b0 Hb0. split_seq H country Hc. split_seq H chk Hk.
  split_seq H bank Hb. split_seq H account Ha. split_seq H trailing Ht.
  apply Matches_Boundary_inv in Hb0, H. subst.
  assert (Hcap : forall c,
            char_match db plain_flags (OneOf [SRange 65%N 90%N]) c = true ->
            is_capital c = true).
  { intros c Hc0. cbn -[in_range] in Hc0. now rewrite orb_false_r in Hc0. }
  assert (Hcd : forall c,
            char_match db plain_flags
              (OneOf [SRange 65%N 90%N; SRange 48%N 57%N]) c = true ->
            is_capital_or_digit c = true).
  { intros c Hc0. cbn -[in_range] in Hc0. now rewrite orb_false_r in Hc0. }
  exists country, chk, bank, account, trailing. rewrite app_nil_r. simpl.
  split; [reflexivity|].
  split; [now apply (run_of_repeat _ Hcap)|].
  split; [now apply digits_of_repeat|].
  split; [now apply (run_of_repeat _ Hcd)|].
  split; [now apply digits_of_repeat|].
  assert (Hone : forall u,
            Matches db plain_flags
              (Group (RepeatOne (OneOf [SRange 65%N 90%N; SRange 48%N 57%N])
                        0 (Some 1))) u ->
            length u <= 1 /\ Forall (fun c => is_capital_or_digit c = true) u).
  { intros u Hu. apply Matches_Group_inv in Hu.
    apply (run_of_repeat _ Hcd) in Hu as [[_ Hl] Hf]. now split. }
  destruct (@Matches_Repeat_short db plain_flags _ is_capital_or_digit Hone
              16 0 trailing Ht) as [Hl Hf].
  split; [split; [lia | exact Hl] | exact Hf].
Qed.

(** The text of an e-mail item. *)
Lemma email_shape (s : pystr) :
  Matches db plain_flags (pat_regex email_pattern) s ->
  exists loc dom tld,
    s = loc ++ cp "@" :: dom ++ cp "." :: tld /\
    all_of is_local_char 1 loc /\
    all_of is_domain_char 1 dom /\
    all_of is_tld_char 2 tld.
Proof.
  intros H. cbn in H.
  split_seq H b0 Hb0. split_seq H loc Hl. split_seq H at_ Hat.
  split_seq H dom Hd. split_seq H dot Hdot. split_seq H tld Ht.
  apply Matches_Boundary_inv in Hb0, H. subst.
  apply Matches_item_inv in Hat as [ca [-> Hat]]; [|reflexivity].
  apply Matches_item_inv in Hdot as [cd [-> Hdot]]; [|reflexivity].
  cbn -[N.eqb] in Hat, Hdot. apply N.eqb_eq in Hat, Hdot. subst.
  exists loc, dom, tld. rewrite app_nil_r. simpl.
  split; [reflexivity|].
  split; [|split];
    (eapply all_of_repeat; [|eassumption]); intros c Hc;
    cbn -[in_range N.eqb] in Hc;
    unfold is_local_char, is_domain_char, is_tld_char, is_ascii_letter,
           is_ascii_digit, mem;
    cbn -[in_range N.eqb];
    repeat match goal with
           | H0 : context [in_range ?a ?b c] |- _ => destruct (in_range a b c)
           | H0 : context [N.eqb c ?a] |- _ => destruct (N.eqb c a)
           end;
    simpl in *; try reflexivity; discriminate.
Qed.

Lemma Matches_word (fl : flags) (l : pystr) :
  forall s, l <> [] ->
  Matches db fl (seqs (map Lit l)) s ->
  Forall2 (fun a c => char_match db fl (Lit a) c = true) l s.
Proof.
  induction l as [|a l IH]; intros s Hne H; [contradiction|].
  destruct l as [|b l].
  - simpl in H. apply Matches_item_inv in H as [c [-> Hc]]; [|reflexivity].
    constructor; [exact Hc | constructor].
  - change (seqs (map Lit (a :: b :: l)))
      with (Seq (Lit a) (seqs (map Lit (b :: l)))) in H.
    apply Matches_Seq_inv in H as [s1 [s2 [-> [H1 H2]]]].
    apply Matches_item_inv in H1 as [c [-> Hc]]; [|reflexivity].
    simpl. constructor; [exact Hc|]. apply IH; [discriminate | exact H2].
Qed.

(** The text of an address item. *)
Lemma address_shape (s : pystr) :
  Matches db ignorecase_flags (pat_regex address_pattern) s ->
  exists number gap name suffix,
    s = number ++ gap ++ name ++ suffix /\
    all_of (is_digit db) 1 number /\
    all_of (is_space db) 1 gap /\
    all_of (is_name_char db) 1 name /\
    exists w, In w street_suffixes /\ spells db w suffix.
Proof.
  intros H. cbn -[word] in H.
  split_seq H b0 Hb0. split_seq H number Hn. split_seq H gap Hg.
  split_seq H name Hm. split_seq H suffix Hs.
  apply Matches_Boundary_inv in Hb0, H. subst.
  exists number, gap, name, suffix. rewrite app_nil_r. simpl.
  split; [reflexivity|].
  split; [eapply all_of_repeat_flags; [|exact Hn]; now intros c Hc|].
  split; [eapply all_of_repeat_flags; [|exact Hg]; now intros c Hc|].
  split; [eapply all_of_repeat_flags; [|exact Hm]; now intros c Hc|].
  assert (Hw : forall w, str w <> [] ->
            Matches db ignorecase_flags (word w) suffix -> spells db w suffix).
  { intros w Hne Hword. unfold spells, matches_letter.
    now apply Matches_word. }
  unfold street_suffixes.
  repeat (apply Matches_Alt_inv in Hs as [Hs|Hs];
          [eexists; split; [|apply Hw; [|exact Hs]; discriminate]; simpl; tauto|]).
  eexists; split; [|apply Hw; [|exact Hs]; discriminate]; simpl; tauto.
Qed.

End CategoryShapes.

(* ================================================================= *)
(** * The detector reports only strings of the category's shape *)

(** X13. The text of every SSN item is three digits, at most one hyphen, two
    digits, at most one hyphen and four digits, in this order.  A digit is
    whatever [\d] accepts: an ASCII digit or a decimal digit of another
    script. *)
Theorem ssn_items_have_shape
  (db : unicode_db) (PhoneNumberMatcher : pystr -> iteration phone_match)
  (T : pystr) (i : pii_item) :
  In i (detect_pii db PhoneNumberMatcher T) ->
  pii_type i = ssn ->
  exists a s1 b s2 c,
    pii_text i = a ++ s1 ++ b ++ s2 ++ c /\
    digits db 3 3 a /\ at_most_one is_hyphen s1 /\
    digits db 2 2 b /\ at_most_one is_hyphen s2 /\
    digits db 4 4 c.
Proof.
  intros Hin Hk. eapply ssn_shape.
  apply (@regex_item_matches db PhoneNumberMatcher T i ssn_pattern Hin).
  now rewrite Hk.
Qed.

Lemma ssn_items_have_shape_witness :
  In {| pii_type := ssn; pii_text := str "123-45-6789";
        pii_start := 0; pii_end := 11; pii_confidence := high |}
     (detect_pii ascii_only_db matcher_none (two_numbers_text)) /\
  (exists a s1 b s2 c,
     str "123-45-6789" = a ++ s1 ++ b ++ s2 ++ c /\
     digits ascii_only_db 3 3 a /\ at_most_one is_hyphen s1 /\
     digits ascii_only_db 2 2 b /\ at_most_one is_hyphen s2 /\
     digits ascii_only_db 4 4 c).
Proof.
  assert (Hin : In {| pii_type := ssn; pii_text := str "123-45-6789";
        pii_start := 0; pii_end := 11; pii_confidence := high |}
                   (detect_pii ascii_only_db matcher_none (two_numbers_text))).
  { vm_compute. left. reflexivity. }
  split; [exact Hin|].
  exact (@ssn_items_have_shape ascii_only_db matcher_none (two_numbers_text) _ Hin eq_refl).
Defined.

(** X14. The text of every date item is one or two digits, a slash or hyphen,
    one or two digits, a slash or hyphen, and two to four digits; the two
    separators need not be the same, and no range of day, month or year
    is checked. *)
Theorem date_items_have_shape
  (db : unicode_db) (PhoneNumberMatcher : pystr -> iteration phone_match)
  (T : pystr) (i : pii_item) :
  In i (detect_pii db PhoneNumberMatcher T) ->
  pii_type i = date ->
  exists d x m y yr,
    pii_text i = d ++ x :: m ++ y :: yr /\
    digits db 1 2 d /\ is_date_separator x = true /\
    digits db 1 2 m /\ is_date_separator y = true /\
    digits db 2 4 yr.
Proof.
  intros Hin Hk. eapply date_shape.
  apply (@regex_item_matches db PhoneNumberMatcher T i date_pattern Hin).
  now rewrite Hk.
Qed.

Lemma date_items_have_shape_witness :
  In {| pii_type := date; pii_text := str "12/31/2023";
        pii_start := 4; pii_end := 14; pii_confidence := low |}
     (detect_pii ascii_only_db matcher_none (str "due 12/31/2023")) /\
  (exists d x m y yr,
     str "12/31/2023" = d ++ x :: m ++ y :: yr /\
     digits ascii_only_db 1 2 d /\ is_date_separator x = true /\
     digits ascii_only_db 1 2 m /\ is_date_separator y = true /\
     digits ascii_only_db 2 4 yr).
Proof.
  assert (Hin : In {| pii_type := date; pii_text := str "12/31/2023";
        pii_start := 4; pii_end := 14; pii_confidence := low |}
                   (detect_pii ascii_only_db matcher_none (str "due 12/31/2023"))).
  { vm_compute. left. reflexivity. }
  split; [exact Hin|].
  exact (@date_items_have_shape ascii_only_db matcher_none (str "due 12/31/2023") _ Hin eq_refl).
Defined.

(** X15. The text of every card item is four groups of four digits, each of
    the first three followed by at most one hyphen or whitespace
    character (a line feed included); no checksum is verified. *)
Theorem credit_card_items_have_shape
  (db : unicode_db) (PhoneNumberMatcher : pystr -> iteration phone_match)
  (T : pystr) (i : pii_item) :
  In i (detect_pii db PhoneNumberMatcher T) ->
  pii_type i = credit_card ->
  exists g1 s1 g2 s2 g3 s3 g4,
    pii_text i = g1 ++ s1 ++ g2 ++ s2 ++ g3 ++ s3 ++ g4 /\
    digits db 4 4 g1 /\ at_most_one (is_card_separator db) s1 /\
    digits db 4 4 g2 /\ at_most_one (is_card_separator db) s2 /\
    digits db 4 4 g3 /\ at_most_one (is_card_separator db) s3 /\
    digits db 4 4 g4.
Proof.
  intros Hin Hk. eapply credit_card_shape.
  apply (@regex_item_matches db PhoneNumberMatcher T i credit_card_pattern Hin).
  now rewrite Hk.
Qed.

Lemma credit_card_items_have_shape_witness :
  In {| pii_type := credit_card; pii_text := str "1234-5678 9012 3456";
        pii_start := 5; pii_end := 24; pii_confidence := medium |}
     (detect_pii ascii_only_db matcher_none (str "card 1234-5678 9012 3456")) /\
  (exists g1 s1 g2 s2 g3 s3 g4,
     str "1234-5678 9012 3456" = g1 ++ s1 ++ g2 ++ s2 ++ g3 ++ s3 ++ g4 /\
     digits ascii_only_db 4 4 g1 /\ at_most_one (is_card_separator ascii_only_db) s1 /\
     digits ascii_only_db 4 4 g2 /\ at_most_one (is_card_separator ascii_only_db) s2 /\
     digits ascii_only_db 4 4 g3 /\ at_most_one (is_card_separator ascii_only_db) s3 /\
     digits ascii_only_db 4 4 g4).
Proof.
  assert (Hin : In {| pii_type := credit_card; pii_text := str "1234-5678 9012 3456";
        pii_start := 5; pii_end := 24; pii_confidence := medium |}
                   (detect_pii ascii_only_db matcher_none (str "card 1234-5678 9012 3456"))).
  { vm_compute. left. reflexivity. }
  split; [exact Hin|].
  exact (@credit_card_items_have_shape ascii_only_db matcher_none (str "card 1234-5678 9012 3456") _ Hin eq_refl).
Defined.

(** X16. The text of every IBAN item is two capitals A-Z, two digits, four
    capitals or ASCII digits, seven digits and at most sixteen further
    capitals or ASCII digits; lower-case letters are never part of it. *)
Theorem iban_items_have_shape
  (db : unicode_db) (PhoneNumberMatcher : pystr -> iteration phone_match)
  (T : pystr) (i : pii_item) :
  In i (detect_pii db PhoneNumberMatcher T) ->
  pii_type i = iban ->
  exists country chk bank account trailing,
    pii_text i = country ++ chk ++ bank ++ account ++ trailing /\
    run_of is_capital 2 2 country /\ digits db 2 2 chk /\
    run_of is_capital_or_digit 4 4 bank /\ digits db 7 7 account /\
    run_of is_capital_or_digit 0 16 trailing.
Proof.
  intros Hin Hk. eapply iban_shape.
  apply (@regex_item_matches db PhoneNumberMatcher T i iban_pattern Hin).
  now rewrite Hk.
Qed.

Lemma iban_items_have_shape_witness :
  In {| pii_type := iban; pii_text := str "GB82WEST12345698765432";
        pii_start := 0; pii_end := 22; pii_confidence := high |}
     (detect_pii ascii_only_db matcher_none (str "GB82WEST12345698765432")) /\
  (exists country chk bank account trailing,
     str "GB82WEST12345698765432" = country ++ chk ++ bank ++ account ++ trailing /\
     run_of is_capital 2 2 country /\ digits ascii_only_db 2 2 chk /\
     run_of is_capital_or_digit 4 4 bank /\ digits ascii_only_db 7 7 account /\
     run_of is_capital_or_digit 0 16 trailing).
Proof.
  assert (Hin : In {| pii_type := iban; pii_text := str "GB82WEST12345698765432";
        pii_start := 0; pii_end := 22; pii_confidence := high |}
                   (detect_pii ascii_only_db matcher_none (str "GB82WEST12345698765432"))).
  { vm_compute. left. reflexivity. }
  split; [exact Hin|].
  exact (@iban_items_have_shape ascii_only_db matcher_none (str "GB82WEST12345698765432") _ Hin eq_refl).
Defined.

(** X17. The text of every e-mail item is one or more characters of
    [[A-Za-z0-9._%+-]], an at sign, one or more characters of
    [[A-Za-z0-9.-]], a dot, and two or more characters each of which is
    an ASCII letter or the bar. *)
Theorem email_items_have_shape
  (db : unicode_db) (PhoneNumberMatcher : pystr -> iteration phone_match)
  (T : pystr) (i : pii_item) :
  In i (detect_pii db PhoneNumberMatcher T) ->
  pii_type i = email ->
  exists loc dom tld,
    pii_text i = loc ++ cp "@" :: dom ++ cp "." :: tld /\
    all_of is_local_char 1 loc /\
    all_of is_domain_char 1 dom /\
    all_of is_tld_char 2 tld.
Proof.
  intros Hin Hk. eapply email_shape.
  apply (@regex_item_matches db PhoneNumberMatcher T i email_pattern Hin).
  now rewrite Hk.
Qed.

Lemma email_items_have_shape_witness :
  In {| pii_type := email; pii_text := str "jane@example.com";
        pii_start := 26; pii_end := 42; pii_confidence := high |}
     (detect_pii ascii_only_db matcher_ok (sample_text)) /\
  (exists loc dom tld,
     str "jane@example.com" = loc ++ cp "@" :: dom ++ cp "." :: tld /\
     all_of is_local_char 1 loc /\
     all_of is_domain_char 1 dom /\
     all_of is_tld_char 2 tld).
Proof.
  assert (Hin : In {| pii_type := email; pii_text := str "jane@example.com";
        pii_start := 26; pii_end := 42; pii_confidence := high |}
                   (detect_pii ascii_only_db matcher_ok (sample_text))).
  { vm_compute. right; left. reflexivity. }
  split; [exact Hin|].
  exact (@email_items_have_shape ascii_only_db matcher_ok (sample_text) _ Hin eq_refl).
Defined.

(** X18. The text of every address item is one or more digits, one
    or more whitespace characters, one or more characters that
    [[A-Za-z\s]] accepts with case ignored, and one of the twelve street
    suffixes with each of its letters matched with case ignored. *)
Theorem address_items_have_shape
  (db : unicode_db) (PhoneNumberMatcher : pystr -> iteration phone_match)
  (T : pystr) (i : pii_item) :
  In i (detect_pii db PhoneNumberMatcher T) ->
  pii_type i = address ->
  exists number gap name suffix,
    pii_text i = number ++ gap ++ name ++ suffix /\
    all_of (is_digit db) 1 number /\
    all_of (is_space db) 1 gap /\
    all_of (is_name_char db) 1 name /\
    exists w, In w street_suffixes /\ spells db w suffix.
Proof.
  intros Hin Hk. eapply address_shape.
  apply (@regex_item_matches db PhoneNumberMatcher T i address_pattern Hin).
  now rewrite Hk.
Qed.

Lemma address_items_have_shape_witness :
  In {| pii_type := address; pii_text := str "123456789 Main St";
        pii_start := 0; pii_end := 17; pii_confidence := medium |}
     (detect_pii ascii_only_db matcher_none (str "123456789 Main St")) /\
  (exists number gap name suffix,
     str "123456789 Main St" = number ++ gap ++ name ++ suffix /\
     all_of (is_digit ascii_only_db) 1 number /\
     all_of (is_space ascii_only_db) 1 gap /\
     all_of (is_name_char ascii_only_db) 1 name /\
     exists w, In w street_suffixes /\ spells ascii_only_db w suffix).
Proof.
  assert (Hin : In {| pii_type := address; pii_text := str "123456789 Main St";
        pii_start := 0; pii_end := 17; pii_confidence := medium |}
                   (detect_pii ascii_only_db matcher_none (str "123456789 Main St"))).
  { vm_compute. right; left. reflexivity. }
  split; [exact Hin|].
  exact (@address_items_have_shape ascii_only_db matcher_none (str "123456789 Main St") _ Hin eq_refl).
Defined.
